(** * cl_update_index: the Solr index maintenance command of CourtListener

    A shallow embedding of [cl/search/management/commands/cl_update_index.py]
    and the properties of its chunking engine, confirmation gate and command
    router.

    The command talks to four collaborators: the operator (stdout, stderr,
    [raw_input]), the record store (Django querysets), the Solr index and
    the Celery task layer.  Everything the command *does* to them is recorded
    as an [event] in a trace; everything it *reads* from them comes from an
    [environment] or from the list of lines waiting on standard input. *)

From Stdlib Require Import ZArith String Ascii Bool Lia DecimalString List.
From Stdlib Require Import Floats.SpecFloat.
Import ListNotations.

Local Open Scope string_scope.
Local Open Scope list_scope.
Local Open Scope Z_scope.

(** String concatenation, written apart from the append of lists. *)
Infix "+++" := String.append (right associativity, at level 60).

(** ** Python builtins used by the command *)

Module Py.

(** The exceptions that the modelled fragment of Python can raise. *)
Inductive exn :=
| TypeError | AttributeError | ZeroDivisionError | OverflowError
| EOFError | ValueError | SyntaxError | EnvironmentError.

Definition exn_eqb (a b : exn) : bool :=
  match a, b with
  | TypeError, TypeError | AttributeError, AttributeError
  | ZeroDivisionError, ZeroDivisionError | OverflowError, OverflowError
  | EOFError, EOFError | ValueError, ValueError
  | SyntaxError, SyntaxError | EnvironmentError, EnvironmentError => true
  | _, _ => false
  end.

Definition LF : string := String (ascii_of_nat 10) EmptyString.
Definition CR : string := String (ascii_of_nat 13) EmptyString.

(** [str(n)] for an [int] or [long]: the decimal digits, no suffix. *)
Definition str_of_int (z : Z) : string := NilZero.string_of_int (Z.to_int z).

(** [sys.maxint] and [sys.maxsize] of a 64-bit CPython 2. *)
Definition sys_maxint : Z := 2 ^ 63 - 1.
Definition sys_maxsize : Z := 2 ^ 63 - 1.

(** [repr(n)]: a [long] (outside the machine range) carries the suffix L. *)
Definition repr_of_int (z : Z) : string :=
  if (- sys_maxint - 1 <=? z) && (z <=? sys_maxint)
  then str_of_int z else str_of_int z +++ "L".

Fixpoint join (sep : string) (l : list string) : string :=
  match l with
  | [] => ""
  | [s] => s
  | s :: l' => s +++ sep +++ join sep l'
  end.

(** [str(l)] for a list of integers. *)
Definition str_of_int_list (l : list Z) : string :=
  "[" +++ join ", " (map repr_of_int l) +++ "]".

Definition str_of_option_string (o : option string) : string :=
  match o with Some s => s | None => "None" end.

(** [s.lower()] on a byte string: only A-Z change. *)
Definition ascii_lower (c : ascii) : ascii :=
  let n := nat_of_ascii c in
  if ((65 <=? n) && (n <=? 90))%nat then ascii_of_nat (n + 32) else c.

Fixpoint lower (s : string) : string :=
  match s with
  | EmptyString => EmptyString
  | String c s' => String (ascii_lower c) (lower s')
  end.

(** [s.startswith(p)] *)
Definition startswith (s p : string) : bool := String.prefix p s.

(** *** Floats: IEEE 754 binary64, on the specification floats *)

Definition prec : Z := 53.
Definition emax : Z := 1024.
Definition float := spec_float.

(** [float(n)], as [n * 1.0] or [x / n] convert their integer operand:
    round to nearest even; OverflowError from [2^1024 - 2^970] on, the
    first integer that rounds to [2^1024]. *)
Definition float_of_int (z : Z) : exn + float :=
  if 2 ^ 1024 - 2 ^ 970 <=? Z.abs z then inl OverflowError
  else inr (binary_normalize prec emax z 0 false).

Definition float_one : float := binary_normalize prec emax 1 0 false.
Definition float_hundred : float := binary_normalize prec emax 100 0 false.

Definition float_mul (x y : float) : float := SFmul prec emax x y.

(** [n * y] with an integer on the left: the integer is converted. *)
Definition int_mul_float (n : Z) (y : float) : exn + float :=
  match float_of_int n with
  | inl e => inl e
  | inr x => inr (float_mul x y)
  end.

(** [x / n] with an integer divisor: the divisor is converted (it may be
    too large), and its conversion is zero exactly when it is zero, which
    raises ZeroDivisionError. *)
Definition float_div_int (x : float) (n : Z) : exn + float :=
  match float_of_int n with
  | inl e => inl e
  | inr y => if n =? 0 then inl ZeroDivisionError
             else inr (SFdiv prec emax x y)
  end.

(** The integer nearest to [m * 2^e], ties to even: what the ['f']
    presentation with precision 0 prints. *)
Definition round_half_even (m : positive) (e : Z) : Z :=
  match e with
  | Z0 => Zpos m
  | Zpos _ => Zpos m * 2 ^ e
  | Zneg p =>
      let d := 2 ^ Zpos p in
      let q := Zpos m / d in
      let r := Zpos m mod d in
      match 2 * r ?= d with
      | Lt => q
      | Gt => q + 1
      | Eq => if Z.even q then q else q + 1
      end
  end.

Definition sign_str (s : bool) : string := if s then "-" else "".

(** ['{:.0%}'.format(x)]: the value is multiplied by 100 as a float and
    printed with no fractional digit, followed by a percent sign. *)
Definition format_percent0 (x : float) : string :=
  match float_mul x float_hundred with
  | S754_nan => "nan%"
  | S754_infinity s => sign_str s +++ "inf%"
  | S754_zero s => sign_str s +++ "0%"
  | S754_finite s m e => sign_str s +++ str_of_int (round_half_even m e) +++ "%"
  end.

End Py.

Import Py.

(** ** Data model *)

(** [--type]: the model class the command works on. *)
Inductive obj_type := Opinion | Audio | Person | RECAPDocument.

Definition obj_type_eqb (a b : obj_type) : bool :=
  match a, b with
  | Opinion, Opinion | Audio, Audio | Person, Person
  | RECAPDocument, RECAPDocument => true
  | _, _ => false
  end.

(** A [datetime]: its position on the time line and what [str] prints. *)
Record datetime := { dt_key : Z; dt_str : string }.

(** A row of the store, with the fields the command looks at. *)
Record record := {
  pk : Z;
  date_created : Z;
  is_alias_of : option Z;
  is_judge : bool
}.

(** What [ast.literal_eval] can give back for a [--query] string. *)
Definition query_dict := list (string * string).
Inductive literal := LitDict (d : query_dict) | LitOther.

(** A positional argument of a method call. *)
Inductive pyval := PyInt (z : Z) | PyList (l : list Z).

(** Celery tasks with their arguments. *)
Inductive task :=
| add_or_update_items (items : list record) (solr_url : option string)
| delete_items (items : pyval) (solr_url : option string)
| add_or_update_opinions (items : list Z)
| add_or_update_audio_files (items : list Z)
| add_or_update_people (items : list Z)
| add_or_update_recap_document (items : list Z).

(** Everything the command does to the outside. *)
Inductive event :=
| StdoutWrite (s : string)               (* self.stdout.write(s) *)
| StdoutFlush                            (* self.stdout.flush() *)
| SysStdoutWrite (s : string)            (* sys.stdout.write(s) *)
| StderrWrite (s : string)               (* self.stderr.write(s) *)
| RawInput (prompt : string)             (* raw_input(prompt) *)
| SolrOpen (url : option string) (mode : option string)
| SolrDeleteAll (url : option string)    (* si.delete_all() *)
| SolrDelete (url : option string) (ids : list Z)
| SolrDeleteQuery (url : option string) (q : query_dict)
| SolrCommit (url : option string)       (* si.commit() *)
| SolrOptimize (url : option string)     (* si.optimize() *)
| Delay (t : task)                       (* t.delay(...) *)
| ApplyAsync (tasks : list task)         (* TaskSet(tasks=...).apply_async() *)
| Join.                                  (* .join() on that result *)

(** What the command reads from its collaborators. *)
Record environment := {
  objects : obj_type -> list record;     (* type.objects.all() *)
  index_count : option string -> Z;      (* si.query('*')...count() *)
  query_count : option string -> query_dict -> Z;
  literal_eval : string -> exn + literal;
  SOLR_URLS : list string;               (* settings.SOLR_URLS.values() *)
  schema_loads : option string -> bool   (* can the index at a URL be opened *)
}.

(** ** Effects: standard input, the trace, exits and exceptions *)

Inductive result (A : Type) : Type :=
| Return (a : A)
| SysExit (code : Z)
| Raise (e : exn).
Arguments Return {A} a.
Arguments SysExit {A} code.
Arguments Raise {A} e.

(** A computation reads lines from standard input and gives a result, the
    lines left, and the events it produced, oldest first. *)
Definition M (A : Type) : Type :=
  list string -> result A * list string * list event.

Definition ret {A} (a : A) : M A := fun i => (Return a, i, []).

Definition bind {A B} (m : M A) (f : A -> M B) : M B :=
  fun i =>
    match m i with
    | (Return a, i', t) => let '(r, i'', t') := f a i' in (r, i'', t ++ t')
    | (SysExit c, i', t) => (SysExit c, i', t)
    | (Raise e, i', t) => (Raise e, i', t)
    end.

Definition emit (e : event) : M unit := fun i => (Return tt, i, [e]).
Definition raise {A} (e : exn) : M A := fun i => (Raise e, i, []).
Definition sys_exit {A} (code : Z) : M A := fun i => (SysExit code, i, []).
Definition lift {A} (x : exn + A) : M A :=
  match x with inl e => raise e | inr a => ret a end.

(** [raw_input(prompt)]: the prompt is shown, then a line is read. *)
Definition raw_input (prompt : string) : M string :=
  fun i =>
    match i with
    | [] => (Raise EOFError, [], [RawInput prompt])
    | a :: i' => (Return a, i', [RawInput prompt])
    end.

Declare Scope monad_scope.
Delimit Scope monad_scope with monad.
Notation "x <- m ;; k" := (bind m (fun x => k))
  (at level 100, m at next level, right associativity) : monad_scope.
Notation "m ;; k" := (bind m (fun _ => k))
  (at level 100, right associativity) : monad_scope.
Local Open Scope monad_scope.

Definition when (b : bool) (m : M unit) : M unit := if b then m else ret tt.

(** [try: m except e: h] *)
Definition try_except {A} (m : M A) (e : exn) (h : M A) : M A :=
  fun i =>
    match m i with
    | (Raise e', i', t) =>
        if exn_eqb e e'
        then let '(r, i'', t') := h i' in (r, i'', t ++ t')
        else (Raise e', i', t)
    | other => other
    end.

Definition len {A} (l : list A) : Z := Z.of_nat (List.length l).

(** ** The command object *)

(** An open [ExtraSolrInterface]. *)
Record solr := { si_url : option string; si_mode : option string }.

(** The attributes [handle] sets on [self]. *)
Record command := {
  self_solr_url : option string;
  self_si : option solr;
  self_verbosity : Z;
  self_type : option obj_type;
  self_noinput : bool
}.

(** The parsed command line, as [handle] receives it. *)
Record options := {
  opt_verbosity : option Z;
  opt_noinput : bool;
  opt_solr_url : option string;
  opt_type : option obj_type;
  opt_update : bool;
  opt_delete : bool;
  opt_optimize : bool;
  opt_optimize_everything : bool;
  opt_do_commit : bool;
  opt_everything : bool;
  opt_query : option string;
  opt_items : option (list Z);
  opt_datetime : option datetime
}.

(** ** The chunking engine *)

Section Chunking.

Variable self : command.

(** [processed_count * 1.0 / count] *)
Definition ratio (processed_count count : Z) : exn + float :=
  match int_mul_float processed_count float_one with
  | inl e => inl e
  | inr x => float_div_int x count
  end.

(** ["\rProcessed {}/{} ({:.0%})".format(processed_count, count, q)] *)
Definition progress_format (processed_count count : Z) (q : float)
  : string :=
  CR +++ "Processed " +++ str_of_int processed_count +++ "/"
     +++ str_of_int count +++ " (" +++ format_percent0 q +++ ")".

Definition progress_line (processed_count count : Z) : M string :=
  q <- lift (ratio processed_count count) ;;
  ret (progress_format processed_count count q).

(** The body of [for item in items], with the loop's three variables. *)
Fixpoint chunk_loop (count chunksize bundle_size : Z) (items : list record)
    (processed_count : Z) (subtasks : list task) (item_bundle : list record)
    : M unit :=
  match items with
  | [] => ret tt
  | item :: items' =>
      let last_item := count =? processed_count + 1 in
      when (self_verbosity self >=? 2)
           (emit (StdoutWrite ("Indexing item " +++ str_of_int (pk item)))) ;;
      let item_bundle := item_bundle ++ [item] in
      let seal := (len item_bundle >=? bundle_size) || last_item in
      let subtasks :=
        if seal
        then subtasks ++ [add_or_update_items item_bundle (self_solr_url self)]
        else subtasks in
      let item_bundle := if seal then [] else item_bundle in
      let processed_count := processed_count + 1 in
      let send := (len subtasks >=? chunksize) || last_item in
      when send (emit (ApplyAsync subtasks) ;; emit Join) ;;
      let subtasks := if send then [] else subtasks in
      line <- progress_line processed_count count ;;
      emit (SysStdoutWrite line) ;;
      emit StdoutFlush ;;
      chunk_loop count chunksize bundle_size items'
                 processed_count subtasks item_bundle
  end.

Definition _chunk_queryset_into_tasks (items : list record) (count : Z)
    (chunksize bundle_size : Z) : M unit :=
  chunk_loop count chunksize bundle_size items 0 [] [] ;;
  emit (StdoutWrite LF).

End Chunking.

(** ** The confirmation gate *)

(** [yes_or_no.lower().startswith('y')] *)
Definition affirmative (yes_or_no : string) : bool :=
  startswith (lower yes_or_no) "y".

Definition proceed_with_deletion (count : Z) (noinput : bool) : M bool :=
  if noinput then ret true
  else
    emit (StdoutWrite LF) ;;
    yes_or_no <- raw_input ("WARNING: Are you **sure** you want to delete all "
                            +++ str_of_int count +++ " items? [y/N] ") ;;
    emit (StdoutWrite LF) ;;
    proceed <- (if negb (affirmative yes_or_no)
                then emit (StdoutWrite ("No action taken." +++ LF)) ;; ret false
                else ret true) ;;
    if (count >? 10000) && proceed
    then
      yes_or_no <- raw_input ("Are you double-plus sure? There are an awful "
                              +++ "lot of items here? [y/N] ") ;;
      if negb (affirmative yes_or_no)
      then emit (StdoutWrite ("No action taken." +++ LF)) ;; ret false
      else ret proceed
    else ret proceed.

(** ** The methods of [Command] *)

(** Modelled from the spec: [queryset_generator] (cl.lib.db_tools) is not
    part of the sources; the spec has it yield the records of the queryset
    as a forward-only sequence, page by page, so it is the queryset's list. *)
Definition queryset_generator (qs : list record) (chunksize : Z)
  : list record := qs.

(** Modelled from the spec: [print_timing] (cl.lib.timer) is not part of the
    sources and the spec gives it no part in what a method receives or
    returns, so a decorated method is its body. *)
Definition print_timing {A} (m : M A) : M A := m.

Section Methods.

Variable env : environment.

(** [ExtraSolrInterface(url, mode=...)]: opening an index loads its schema,
    and fails with EnvironmentError when that cannot be done. *)
Definition ExtraSolrInterface (url : option string) (mode : option string)
  : M solr :=
  emit (SolrOpen url mode) ;;
  if schema_loads env url
  then ret {| si_url := url; si_mode := mode |}
  else raise EnvironmentError.

Variable self : command.

(** [self.si.<attr>] and [self.type.<attr>] fail on [None]. *)
Definition get_si : M solr :=
  match self_si self with Some si => ret si | None => raise AttributeError end.
Definition get_type : M obj_type :=
  match self_type self with Some t => ret t | None => raise AttributeError end.

(** [self.type == T] *)
Definition type_is (T : obj_type) : bool :=
  match self_type self with Some t => obj_type_eqb t T | None => false end.

Definition str_of_pyval (v : pyval) : string :=
  match v with PyInt z => str_of_int z | PyList l => str_of_int_list l end.

(** [def delete(self, items)]: one positional argument besides [self]. *)
Definition delete (args : list pyval) : M unit :=
  match args with
  | [items] =>
      print_timing (
        emit (StdoutWrite ("Deleting items(s): " +++ str_of_pyval items
                           +++ LF)) ;;
        emit (Delay (delete_items items (self_solr_url self))))
  | _ => raise TypeError
  end.

Definition delete_all : M unit :=
  si <- get_si ;;
  let count := index_count env (si_url si) in
  proceed <- proceed_with_deletion count (self_noinput self) ;;
  if proceed then
    emit (StdoutWrite ("Removing all items from your index because "
                       +++ "you said so." +++ LF)) ;;
    emit (StdoutWrite ("  Marking all items as deleted..." +++ LF)) ;;
    si <- get_si ;;
    emit (SolrDeleteAll (si_url si)) ;;
    emit (StdoutWrite ("  Committing the deletion..." +++ LF)) ;;
    si <- get_si ;;
    emit (SolrCommit (si_url si)) ;;
    emit (StdoutWrite (LF +++ "Done. The index located at: "
                       +++ str_of_option_string (self_solr_url self) +++ LF
                       +++ "is now empty." +++ LF))
  else ret tt.

Definition delete_by_datetime (dt : datetime) : M unit :=
  print_timing (
    ty <- get_type ;;
    let qs := map pk (filter (fun r => date_created r >? dt_key dt)
                             (objects env ty)) in
    let count := len qs in
    proceed <- proceed_with_deletion count (self_noinput self) ;;
    if proceed then
      emit (StdoutWrite ("Deleting all item(s) newer than " +++ dt_str dt
                         +++ LF)) ;;
      si <- get_si ;;
      emit (SolrDelete (si_url si) qs) ;;
      si <- get_si ;;
      emit (SolrCommit (si_url si))
    else ret tt).

Definition delete_by_query (query : string) : M unit :=
  print_timing (
    lit <- lift (literal_eval env query) ;;
    si <- get_si ;;
    query_dict <- match lit with
                  | LitDict d => ret d
                  | LitOther => raise TypeError
                  end ;;
    let count := query_count env (si_url si) query_dict in
    proceed <- proceed_with_deletion count (self_noinput self) ;;
    if proceed then
      emit (StdoutWrite ("Deleting all item(s) that match the query: "
                         +++ query +++ LF)) ;;
      si <- get_si ;;
      emit (SolrDeleteQuery (si_url si) query_dict) ;;
      si <- get_si ;;
      emit (SolrCommit (si_url si))
    else ret tt).

(** [def add_or_update(self, *items)] *)
Definition add_or_update (items : list Z) : M unit :=
  print_timing (
    emit (StdoutWrite ("Adding or updating item(s): "
                       +++ str_of_int_list items +++ LF)) ;;
    if type_is Opinion then emit (Delay (add_or_update_opinions items))
    else if type_is Audio then emit (Delay (add_or_update_audio_files items))
    else if type_is Person then emit (Delay (add_or_update_people items))
    else if type_is RECAPDocument
         then emit (Delay (add_or_update_recap_document items))
    else ret tt).

Definition add_or_update_by_datetime (dt : datetime) : M unit :=
  print_timing (
    emit (StdoutWrite ("Adding or updating items(s) newer than "
                       +++ dt_str dt +++ LF)) ;;
    ty <- get_type ;;
    let qs := filter (fun r => date_created r >=? dt_key dt)
                     (objects env ty) in
    let items := queryset_generator qs 5000 in
    let count := len qs in
    _chunk_queryset_into_tasks self items count 50 250).

Definition add_or_update_all : M unit :=
  print_timing (
    emit (StdoutWrite ("Adding or updating all items..." +++ LF)) ;;
    q_count <-
      (if type_is Person then
         let q := filter (fun r => match is_alias_of r with
                                   | None => true | Some _ => false end)
                         (objects env Person) in
         let q := filter is_judge q in
         ret (q, len q)
       else if type_is RECAPDocument then
         let q := objects env RECAPDocument in
         ret (queryset_generator q 5000, len q)
       else
         ty <- get_type ;;
         let q := objects env ty in
         ret (queryset_generator q 5000, len q)) ;;
    let '(q, count) := q_count in
    _chunk_queryset_into_tasks self q count 50 250).

Definition optimize : M unit :=
  print_timing (
    emit (StdoutWrite "Optimizing the index...") ;;
    si <- get_si ;;
    emit (SolrOptimize (si_url si)) ;;
    emit (StdoutWrite ("done." +++ LF))).

Fixpoint optimize_each (urls : list string) : M unit :=
  match urls with
  | [] => ret tt
  | url :: urls' =>
      emit (StdoutWrite (" - " +++ url +++ LF)) ;;
      si <- try_except
              (si <- ExtraSolrInterface (Some url) None ;; ret (Some si))
              EnvironmentError
              (emit (StderrWrite "   Couldn't load schema!") ;; ret None) ;;
      match si with
      | Some si => emit (SolrOptimize (si_url si))
      | None => ret tt                                   (* continue *)
      end ;;
      optimize_each urls'
  end.

Definition optimize_everything : M unit :=
  print_timing (
    let urls := SOLR_URLS env in
    emit (StdoutWrite ("Found " +++ str_of_int (len urls)
                       +++ " indexes. Optimizing..." +++ LF)) ;;
    optimize_each urls ;;
    emit (StdoutWrite ("Done." +++ LF))).

End Methods.

(** ** The command router *)

Section Handle.

Variable env : environment.

(** Truth values of the scope selectors, as [if options.get(...)] sees
    them: an empty string and an empty list are false. *)
Definition query_given (o : options) : bool :=
  match opt_query o with Some (String _ _) => true | _ => false end.
Definition items_given (o : options) : bool :=
  match opt_items o with Some (_ :: _) => true | _ => false end.
Definition datetime_given (o : options) : bool :=
  match opt_datetime o with Some _ => true | None => false end.

(** The first lines of [handle]: the attributes of [self]. *)
Definition setup (o : options) : M command :=
  let verbosity := match opt_verbosity o with Some v => v | None => 1 end in
  let self := {| self_solr_url := None; self_si := None;
                 self_verbosity := verbosity; self_type := None;
                 self_noinput := opt_noinput o |} in
  if negb (opt_optimize_everything o) then
    si <- ExtraSolrInterface env (opt_solr_url o) (Some "rw") ;;
    ret {| self_solr_url := opt_solr_url o; self_si := Some si;
           self_verbosity := verbosity; self_type := opt_type o;
           self_noinput := opt_noinput o |}
  else ret self.

(** The [if options['update']: ... elif options.get('delete'): ...] part. *)
Definition primary_action (self : command) (o : options) : M unit :=
  if opt_update o then
    when (self_verbosity self >=? 1)
         (emit (StdoutWrite ("Running in update mode..." +++ LF))) ;;
    if opt_everything o then add_or_update_all env self
    else match opt_datetime o with
    | Some dt => add_or_update_by_datetime env self dt
    | None =>
    if query_given o then
      emit (StderrWrite "Updating by query not implemented.") ;;
      sys_exit 1
    else match opt_items o with
    | Some (i :: items) => add_or_update self (i :: items)
    | _ => ret tt
    end end
  else if opt_delete o then
    when (self_verbosity self >=? 1)
         (emit (StdoutWrite ("Running in deletion mode..." +++ LF))) ;;
    if opt_everything o then delete_all env self
    else match opt_datetime o with
    | Some dt => delete_by_datetime env self dt
    | None =>
    match opt_query o with
    | Some (String c q) => delete_by_query env self (String c q)
    | _ =>
    match opt_items o with
    | Some (i :: items) => delete self (map PyInt (i :: items))
    | _ => ret tt
    end end end
  else ret tt.

(** The three post-action tests, in the order of the source. *)
Definition post_actions (self : command) (o : options) : M unit :=
  when (opt_do_commit o)
       (si <- get_si self ;; emit (SolrCommit (si_url si))) ;;
  when (opt_optimize o) (optimize self) ;;
  when (opt_optimize_everything o) (optimize_everything env).

Definition usage_message : string :=
  "Error: You must specify whether you wish to "
  +++ "update, delete, commit, or optimize your "
  +++ "index." +++ LF.

Definition any (l : list bool) : bool := existsb (fun b => b) l.

Definition handle (o : options) : M unit :=
  self <- setup o ;;
  primary_action self o ;;
  post_actions self o ;;
  if negb (any [opt_update o; opt_delete o; opt_do_commit o;
                opt_optimize o; opt_optimize_everything o])
  then emit (StderrWrite usage_message) ;; sys_exit 1
  else ret tt.

End Handle.

(** * Vocabulary of the properties *)

(** ** Grouping a list into runs of a given size

    [groups n acc l] closes a run as soon as it holds [n] elements, and
    closes the last one at the end of the list whatever its size: the
    reference against which the two levels of the engine are compared. *)

Section GroupsOf.

Context {A : Type}.
Variable n : nat.

Fixpoint groups (acc l : list A) : list (list A) :=
  match l with
  | [] => match acc with [] => [] | _ => [acc] end
  | x :: l' =>
      if (n <=? List.length (acc ++ [x]))%nat
      then (acc ++ [x]) :: groups [] l'
      else groups (acc ++ [x]) l'
  end.

(** The sizes of the runs: full ones, then what is left over. *)
Definition run_sizes (total : nat) : list nat :=
  repeat n (total / n) ++
  (if (total mod n =? 0)%nat then [] else [(total mod n)%nat]).

End GroupsOf.

(** ** The engine's trace when no progress line fails *)

Definition to_float (z : Z) : float := binary_normalize prec emax z 0 false.

Section LoopTrace.

Variable self : command.
Variables count chunksize bundle_size : Z.

(** The progress line for [processed_count] out of [count]. *)
Definition progress_text (processed_count : Z) : string :=
  progress_format processed_count count
    (SFdiv prec emax (float_mul (to_float processed_count) float_one)
           (to_float count)).

(** The events of the loop, as long as no progress line fails. *)
Fixpoint loop_trace (items : list record) (processed_count : Z)
    (subtasks : list task) (item_bundle : list record) : list event :=
  match items with
  | [] => []
  | item :: items' =>
      let last_item := count =? processed_count + 1 in
      let item_bundle := item_bundle ++ [item] in
      let seal := (len item_bundle >=? bundle_size) || last_item in
      let subtasks :=
        if seal
        then subtasks ++ [add_or_update_items item_bundle (self_solr_url self)]
        else subtasks in
      let item_bundle := if seal then [] else item_bundle in
      let processed_count := processed_count + 1 in
      let send := (len subtasks >=? chunksize) || last_item in
      (if self_verbosity self >=? 2
       then [StdoutWrite ("Indexing item " +++ str_of_int (pk item))]
       else [])
      ++ (if send then [ApplyAsync subtasks; Join] else [])
      ++ [SysStdoutWrite (progress_text processed_count); StdoutFlush]
      ++ loop_trace items' processed_count
                    (if send then [] else subtasks) item_bundle
  end.

End LoopTrace.

(** ** Reading a trace *)

(** The task groups handed to Celery, oldest first. *)
Definition waves (tr : list event) : list (list task) :=
  flat_map (fun e => match e with ApplyAsync w => [w] | _ => [] end) tr.

(** The tasks handed to Celery through task groups, oldest first. *)
Definition dispatched (tr : list event) : list task := concat (waves tr).

Definition is_celery (e : event) : bool :=
  match e with ApplyAsync _ | Join => true | _ => false end.

(** The trace restricted to what goes through the task groups. *)
Definition celery (tr : list event) : list event := filter is_celery tr.

Definition is_join (e : event) : bool :=
  match e with Join => true | _ => false end.

(** The number of blocking joins. *)
Definition joins (tr : list event) : Z := len (filter is_join tr).

(** What was written on [sys.stdout]. *)
Definition progress_lines (tr : list event) : list string :=
  flat_map (fun e => match e with SysStdoutWrite s => [s] | _ => [] end) tr.

(** A group of tasks is sent and joined at once. *)
Definition wave_events (w : list task) : list event := [ApplyAsync w; Join].

Definition ceil_div (a b : Z) : Z := (a + b - 1) / b.

(** Floats of moderate size and positive sign: zero, or a mantissa and an
    exponent within the given bounds. *)
Definition fits (lo hi top : Z) (f : float) : Prop :=
  match f with
  | S754_zero s => s = false
  | S754_finite s m e =>
      s = false /\ lo <= e <= hi /\ Zdigits2 (Zpos m) + e <= top
  | _ => False
  end.

Definition is_finite_pos (f : float) : Prop :=
  match f with S754_finite false _ _ => True | _ => False end.

(** ** Waves in flight *)

(** A task group is in flight from its [apply_async] to the return of the
    [join] on its result, which blocks until every task of it is done. *)
Definition step_in_flight (n : nat) (e : event) : nat :=
  match e with
  | ApplyAsync _ => S n
  | Join => Nat.pred n
  | _ => n
  end.

(** The number of task groups in flight after a trace. *)
Definition in_flight (tr : list event) : nat := fold_left step_in_flight tr 0%nat.

(** Traces in which every group is joined right after it is sent. *)
Inductive serial : list event -> Prop :=
| serial_nil : serial []
| serial_other : forall e tr, is_celery e = false -> serial tr -> serial (e :: tr)
| serial_wave : forall w tr, serial tr -> serial (ApplyAsync w :: Join :: tr).

(** ** The confirmation gate *)

Definition is_prompt (e : event) : bool :=
  match e with RawInput _ => true | _ => false end.

(** The number of questions put to the operator. *)
Definition prompts (tr : list event) : Z := len (filter is_prompt tr).

(** Events that change the index or hand work on it to Celery. *)
Definition touches_index (e : event) : bool :=
  match e with
  | SolrDeleteAll _ | SolrDelete _ _ | SolrDeleteQuery _ _
  | SolrCommit _ | SolrOptimize _ | Delay _ | ApplyAsync _ => true
  | _ => false
  end.

Definition index_untouched (tr : list event) : Prop :=
  existsb touches_index tr = false.

(** With two answers waiting, the operator lets the deletion of [count]
    items through when the first is affirmative and, above 10,000 items,
    the second is too. *)
Definition permitted (count : Z) (a1 a2 : string) : bool :=
  affirmative a1 && ((count <=? 10000) || affirmative a2).

(** An operation behind the gate: it runs its body when the gate lets it. *)
Definition gated (count : Z) (noinput : bool) (body : M unit) : M unit :=
  proceed <- proceed_with_deletion count noinput ;;
  if proceed then body else ret tt.

(** ** The phases of [handle] *)

Section Phases.

Variable env : environment.

(** The index named on the command line can be opened: needed whenever
    [handle] opens it, that is without [--optimize-everything]. *)
Definition index_available (o : options) : Prop :=
  opt_optimize_everything o = false -> schema_loads env (opt_solr_url o) = true.

Definition optimize_everything_trace : list event :=
  snd (optimize_everything env []).

End Phases.

Definition verbosity_of (o : options) : Z :=
  match opt_verbosity o with Some v => v | None => 1 end.

(** [self] once the index is open. *)
Definition opened (o : options) : command :=
  {| self_solr_url := opt_solr_url o;
     self_si := Some {| si_url := opt_solr_url o; si_mode := Some "rw" |};
     self_verbosity := verbosity_of o; self_type := opt_type o;
     self_noinput := opt_noinput o |}.

(** [self] under [--optimize-everything]: no index, no type. *)
Definition bare (o : options) : command :=
  {| self_solr_url := None; self_si := None;
     self_verbosity := verbosity_of o; self_type := None;
     self_noinput := opt_noinput o |}.

Definition self_of (o : options) : command :=
  if opt_optimize_everything o then bare o else opened o.

Definition setup_trace (o : options) : list event :=
  if opt_optimize_everything o then []
  else [SolrOpen (opt_solr_url o) (Some "rw")].

(** What [--do-commit] and [--optimize] do to an open index. *)
Definition commit_trace (o : options) : list event :=
  if opt_do_commit o then [SolrCommit (opt_solr_url o)] else [].

Definition optimize_trace (o : options) : list event :=
  if opt_optimize o
  then [StdoutWrite "Optimizing the index..."; SolrOptimize (opt_solr_url o);
        StdoutWrite ("done." +++ LF)]
  else [].

(** No action flag at all. *)
Definition no_action (o : options) : bool :=
  negb (any [opt_update o; opt_delete o; opt_do_commit o;
             opt_optimize o; opt_optimize_everything o]).

Definition no_exit {A} (m : M A) : Prop :=
  forall i c, fst (fst (m i)) <> SysExit c.

(** The one place of the primary action that exits. *)
Definition update_by_query (o : options) : bool :=
  opt_update o && negb (opt_everything o) && negb (datetime_given o)
  && query_given o.

Definition given {A} (x : option A) : bool :=
  match x with Some _ => true | None => false end.

(** The four scope selectors form a mutually exclusive group of the
    argument parser: at most one of them is on the command line. *)
Definition scope_exclusive (o : options) : Prop :=
  (List.length (filter (fun b : bool => b)
                       [opt_everything o; given (opt_query o);
                        given (opt_items o); given (opt_datetime o)])
   <= 1)%nat.

Definition update_banner (o : options) : list event :=
  if verbosity_of o >=? 1
  then [StdoutWrite ("Running in update mode..." +++ LF)] else [].

Definition delete_banner (o : options) : list event :=
  if verbosity_of o >=? 1
  then [StdoutWrite ("Running in deletion mode..." +++ LF)] else [].

(** No scope selector that [handle] takes as given: none on the command
    line, or an empty id list, or an empty query. *)
Definition no_scope (o : options) : Prop :=
  opt_everything o = false /\ opt_datetime o = None
  /\ query_given o = false /\ items_given o = false.

(** Under [--optimize-everything] no index is open for a commit or an
    optimize of the current index. *)
Definition post_actions_can_run (o : options) : Prop :=
  opt_optimize_everything o = true ->
  opt_do_commit o = false /\ opt_optimize o = false.

Definition mode_banner (o : options) : list event :=
  if opt_update o then update_banner o else delete_banner o.

(** What commit and optimize leave in a trace, besides messages. *)
Definition maintenance_event (e : event) : Prop :=
  match e with
  | StdoutWrite _ | SolrOpen _ _ | SolrCommit _ | SolrOptimize _ => True
  | StderrWrite s => s = "   Couldn't load schema!"
  | _ => False
  end.

(** ** A small installation to run the command on *)

(** Three records to run the engine on. *)
Definition a_record (k : Z) : record :=
  {| pk := k; date_created := 0; is_alias_of := None; is_judge := false |}.

Definition three_records : list record := [a_record 1; a_record 2; a_record 3].

Definition a_command : command :=
  {| self_solr_url := Some "http://127.0.0.1:8983/solr/collection1";
     self_si := None; self_verbosity := 1; self_type := Some Opinion;
     self_noinput := false |}.

Definition a_datetime : datetime :=
  {| dt_key := 100; dt_str := "2016-01-01 00:00:00" |}.

Definition created (k at_ : Z) : record :=
  {| pk := k; date_created := at_; is_alias_of := None; is_judge := false |}.

(** Three opinions: created before, exactly at, and after [a_datetime]. *)
Definition an_environment : environment :=
  {| objects := fun _ => [created 1 99; created 2 100; created 3 101];
     index_count := fun _ => 10000;
     query_count := fun _ _ => 3;
     literal_eval := fun _ => inr (LitDict [("court_id", "haw")]);
     SOLR_URLS := ["http://127.0.0.1:8983/solr/collection1";
                   "http://127.0.0.1:8983/solr/audio"];
     schema_loads := fun _ => true |}.

Definition the_url : option string :=
  Some "http://127.0.0.1:8983/solr/collection1".

(** [--type opinions --solr-url ...] and nothing else. *)
Definition no_flags : options :=
  {| opt_verbosity := Some 1; opt_noinput := false; opt_solr_url := the_url;
     opt_type := Some Opinion; opt_update := false; opt_delete := false;
     opt_optimize := false; opt_optimize_everything := false;
     opt_do_commit := false; opt_everything := false; opt_query := None;
     opt_items := None; opt_datetime := None |}.

(** [--do-commit] *)
Definition commit_only : options :=
  {| opt_verbosity := Some 1; opt_noinput := false; opt_solr_url := the_url;
     opt_type := Some Opinion; opt_update := false; opt_delete := false;
     opt_optimize := false; opt_optimize_everything := false;
     opt_do_commit := true; opt_everything := false; opt_query := None;
     opt_items := None; opt_datetime := None |}.

(** [--do-commit --optimize-everything] *)
Definition commit_and_optimize_everything : options :=
  {| opt_verbosity := Some 1; opt_noinput := false; opt_solr_url := the_url;
     opt_type := Some Opinion; opt_update := false; opt_delete := false;
     opt_optimize := false; opt_optimize_everything := true;
     opt_do_commit := true; opt_everything := false; opt_query := None;
     opt_items := None; opt_datetime := None |}.

(** [--delete --items ...] *)
Definition delete_items_of (ids : list Z) : options :=
  {| opt_verbosity := Some 1; opt_noinput := false; opt_solr_url := the_url;
     opt_type := Some Opinion; opt_update := false; opt_delete := true;
     opt_optimize := false; opt_optimize_everything := false;
     opt_do_commit := false; opt_everything := false; opt_query := None;
     opt_items := Some ids; opt_datetime := None |}.

(** [--update --items] with no id *)
Definition update_no_items : options :=
  {| opt_verbosity := Some 1; opt_noinput := false; opt_solr_url := the_url;
     opt_type := Some Opinion; opt_update := true; opt_delete := false;
     opt_optimize := false; opt_optimize_everything := false;
     opt_do_commit := false; opt_everything := false; opt_query := None;
     opt_items := Some []; opt_datetime := None |}.

(** [--update --datetime ...] and [--delete --datetime ... --noinput] *)
Definition by_datetime (update : bool) : options :=
  {| opt_verbosity := Some 1; opt_noinput := true; opt_solr_url := the_url;
     opt_type := Some Opinion; opt_update := update;
     opt_delete := negb update;
     opt_optimize := false; opt_optimize_everything := false;
     opt_do_commit := false; opt_everything := false; opt_query := None;
     opt_items := None; opt_datetime := Some a_datetime |}.

(** * Vocabulary of the further properties *)

(** The indexes optimized, opened, and the schema warnings, oldest first. *)
Definition optimized (tr : list event) : list (option string) :=
  flat_map (fun e => match e with SolrOptimize u => [u] | _ => [] end) tr.

Definition opened_indexes (tr : list event) : list (option string) :=
  flat_map (fun e => match e with SolrOpen u _ => [u] | _ => [] end) tr.

Definition is_schema_warning (e : event) : bool :=
  match e with
  | StderrWrite s => String.eqb s "   Couldn't load schema!"
  | _ => false
  end.

Definition schema_warnings (tr : list event) : Z :=
  len (filter is_schema_warning tr).

(** The tasks submitted one at a time with [delay]. *)
Definition delays (tr : list event) : list task :=
  flat_map (fun e => match e with Delay t => [t] | _ => [] end) tr.

(** The task that updates a list of ids, for each model class. *)
Definition update_task (ty : option obj_type) (ids : list Z) : list task :=
  match ty with
  | Some Opinion => [add_or_update_opinions ids]
  | Some Audio => [add_or_update_audio_files ids]
  | Some Person => [add_or_update_people ids]
  | Some RECAPDocument => [add_or_update_recap_document ids]
  | None => []
  end.

(** The records a task carries, and the records sent through task groups. *)
Definition task_records (t : task) : list record :=
  match t with add_or_update_items l _ => l | _ => [] end.

Definition sent_records (tr : list event) : list record :=
  flat_map task_records (dispatched tr).

(** What was written with [self.stdout.write]. *)
Definition stdout_lines (tr : list event) : list string :=
  flat_map (fun e => match e with StdoutWrite s => [s] | _ => [] end) tr.

(** The runs of exactly [n] elements of a list, what is left at the end
    being dropped: [groups] without its last, partial run. *)
Fixpoint full_groups {A} (n : nat) (acc l : list A) : list (list A) :=
  match l with
  | [] => []
  | x :: l' =>
      if (n <=? List.length (acc ++ [x]))%nat
      then (acc ++ [x]) :: full_groups n [] l'
      else full_groups n (acc ++ [x]) l'
  end.


(** What a trace does to the index, in order. *)
Definition index_events (tr : list event) : list event :=
  filter touches_index tr.

Definition is_delete (e : event) : bool :=
  match e with
  | SolrDeleteAll _ | SolrDelete _ _ | SolrDeleteQuery _ _ => true
  | _ => false
  end.

(** A bulk deletion leaves the index alone, or deletes once and commits. *)
Definition deletes_and_commits (tr : list event) : Prop :=
  index_events tr = []
  \/ exists d url, is_delete d = true /\ index_events tr = [d; SolrCommit url].

(** Computations whose traces are serial, and computations that read no
    line and ask no question. *)
Definition keeps_serial {A} (m : M A) : Prop :=
  forall i, serial (snd (m i)).

Definition asks_nothing {A} (m : M A) : Prop :=
  forall i, snd (fst (m i)) = i /\ prompts (snd (m i)) = 0.

(** * Properties *)

(** ** Runs and their sizes *)

Section Groups.

Context {A : Type}.
Variable n : nat.

Lemma concat_groups : forall (l acc : list A), concat (groups n acc l) = acc ++ l.
Proof.
  induction l as [|x l IH]; intros acc; simpl.
  - destruct acc; simpl; now rewrite ?app_nil_r.
  - destruct (n <=? _)%nat; simpl; rewrite IH; simpl;
      now rewrite <- app_assoc.
Qed.

Hypothesis n_pos : (0 < n)%nat.

Lemma run_sizes_0 : run_sizes n 0 = [].
Proof.
  unfold run_sizes. now rewrite Nat.Div0.div_0_l, Nat.Div0.mod_0_l.
Qed.

Lemma run_sizes_small : forall t, (0 < t < n)%nat -> run_sizes n t = [t].
Proof.
  intros t Ht. unfold run_sizes.
  rewrite Nat.div_small, Nat.mod_small by lia. simpl.
  destruct (Nat.eqb_spec t 0); [lia | reflexivity].
Qed.

Lemma run_sizes_step : forall t, run_sizes n (n + t) = n :: run_sizes n t.
Proof.
  intros t. unfold run_sizes.
  replace (n + t)%nat with (t + 1 * n)%nat by lia.
  rewrite Nat.div_add, Nat.Div0.mod_add by lia.
  rewrite Nat.add_1_r. reflexivity.
Qed.

Lemma sizes_groups : forall (l acc : list A),
    (List.length acc < n)%nat ->
    map (@List.length A) (groups n acc l)
    = run_sizes n (List.length acc + List.length l).
Proof.
  induction l as [|x l IH]; intros acc Hacc; simpl.
  - rewrite Nat.add_0_r. destruct acc as [|a acc];
      [simpl; now rewrite run_sizes_0|].
    simpl. symmetry. apply run_sizes_small. simpl in *. lia.
  - rewrite length_app. simpl.
    destruct (Nat.leb_spec n (List.length acc + 1)).
    + simpl. rewrite IH by (simpl; lia). simpl.
      rewrite length_app. simpl.
      replace (List.length acc + 1)%nat with n by lia.
      replace (List.length acc + S (List.length l))%nat
        with (n + List.length l)%nat by lia.
      symmetry. apply run_sizes_step.
    + rewrite IH by (rewrite length_app; simpl; lia).
      rewrite length_app. simpl. f_equal. lia.
Qed.

Lemma length_run_sizes : forall t,
    List.length (run_sizes n t)
    = (t / n + (if (t mod n =? 0)%nat then 0 else 1))%nat.
Proof.
  intros t. unfold run_sizes. rewrite length_app, repeat_length.
  destruct (t mod n =? 0)%nat; reflexivity.
Qed.

Lemma nth_run_sizes_full : forall t i,
    (S i < List.length (run_sizes n t))%nat -> nth i (run_sizes n t) 0%nat = n.
Proof.
  intros t i Hi. rewrite length_run_sizes in Hi. unfold run_sizes.
  assert (i < t / n)%nat by (destruct (t mod n =? 0)%nat; lia).
  rewrite app_nth1 by (rewrite repeat_length; lia).
  apply nth_repeat_lt. lia.
Qed.

Lemma last_run_sizes : forall t,
    (0 < t)%nat ->
    last (run_sizes n t) 0%nat
    = if (t mod n =? 0)%nat then n else (t mod n)%nat.
Proof.
  intros t Ht. unfold run_sizes.
  destruct (Nat.eqb_spec (t mod n) 0) as [E|E].
  - rewrite app_nil_r.
    assert (0 < t / n)%nat.
    { pose proof (Nat.div_mod_eq t n). nia. }
    destruct (t / n)%nat as [|k]; [lia|].
    replace (S k) with (k + 1)%nat by lia.
    rewrite repeat_app. simpl. apply last_last.
  - apply last_last.
Qed.

End Groups.

(** ** The chunking engine, run without exceptions *)

Section ChunkingRun.

Variable self : command.
Variables count chunksize bundle_size : Z.

Lemma float_of_int_small : forall z,
    0 <= z <= sys_maxsize -> float_of_int z = inr (to_float z).
Proof.
  intros z Hz. unfold float_of_int.
  assert (B : sys_maxsize < 2 ^ 1024 - 2 ^ 970) by reflexivity.
  destruct (Z.leb_spec (2 ^ 1024 - 2 ^ 970) (Z.abs z)); [lia | reflexivity].
Qed.

Lemma progress_line_run : forall p i,
    0 <= p <= sys_maxsize -> 0 < count <= sys_maxsize ->
    progress_line p count i = (Return (progress_text count p), i, []).
Proof.
  intros p i Hp Hc.
  unfold progress_line, ratio, int_mul_float, float_div_int, bind, lift.
  rewrite !float_of_int_small by lia.
  destruct (Z.eqb_spec count 0); [lia | reflexivity].
Qed.

Lemma chunk_loop_run : forall items p st ib i,
    0 <= p -> count = p + len items -> count <= sys_maxsize ->
    chunk_loop self count chunksize bundle_size items p st ib i
    = (Return tt, i,
     loop_trace self count chunksize bundle_size items p st ib).
Proof.
  induction items as [|item items IH]; intros p st ib i Hp Hc Hmax.
  - reflexivity.
  - unfold len in Hc. simpl List.length in Hc.
    cbn [chunk_loop loop_trace]. unfold bind at 1.
    assert (Hw : forall (b : bool) e j,
               when b (emit e) j = (Return tt, j, if b then [e] else []))
      by (intros [|] ? ?; reflexivity).
    rewrite Hw. unfold bind at 1.
    match goal with
    | |- context [when ?b (bind (emit ?e1) (fun _ => emit ?e2)) i] =>
        replace (when b (bind (emit e1) (fun _ => emit e2)) i)
          with (Return tt, i, if b then [e1; e2] else [])
          by (destruct b; reflexivity)
    end.
    unfold bind at 1. rewrite progress_line_run by (unfold len; lia).
    unfold bind at 1, emit at 1. unfold bind at 1, emit at 1.
    rewrite IH by (unfold len; lia).
    simpl. reflexivity.
Qed.

End ChunkingRun.

(** ** Reading a trace *)

Lemma dispatched_app : forall a b,
    dispatched (a ++ b) = dispatched a ++ dispatched b.
Proof.
  intros a b. unfold dispatched, waves. now rewrite flat_map_app, concat_app.
Qed.

Lemma celery_app : forall a b, celery (a ++ b) = celery a ++ celery b.
Proof. intros a b. apply filter_app. Qed.

Lemma progress_lines_app : forall a b,
    progress_lines (a ++ b) = progress_lines a ++ progress_lines b.
Proof. intros a b. apply flat_map_app. Qed.

Lemma groups_last_run : forall {A} n (acc : list A) x,
    groups n acc [x] = [acc ++ [x]].
Proof.
  intros A n acc x. simpl. destruct (n <=? _)%nat; [reflexivity|].
  destruct acc; reflexivity.
Qed.

(** The size test of the source, on a list that is not empty, is the size
    test of [groups] for the size clamped to at least one. *)
Lemma size_test : forall {A} (l : list A) (size : Z),
    l <> [] ->
    (len l >=? size) = (Z.to_nat (Z.max 1 size) <=? List.length l)%nat.
Proof.
  intros A l size Hl. unfold len.
  assert (0 < List.length l)%nat by (destruct l; [congruence | simpl; lia]).
  rewrite Z.geb_leb.
  destruct (Z.leb_spec size (Z.of_nat (List.length l)));
    destruct (Nat.leb_spec (Z.to_nat (Z.max 1 size)) (List.length l));
    try reflexivity; lia.
Qed.

Lemma snoc_not_nil : forall {A} (l : list A) x, l ++ [x] <> [].
Proof. intros A [|a l] x; discriminate. Qed.

(** Side conditions of the loop lemmas: sizes and counts. *)
Ltac loop_side :=
  first [ assumption | discriminate
        | unfold len in *; simpl List.length in *; lia ].

Section ChunkingTrace.

Variable self : command.
Variables count chunksize bundle_size : Z.

Let mk (b : list record) : task := add_or_update_items b (self_solr_url self).
Let B' : nat := Z.to_nat (Z.max 1 bundle_size).
Let C' : nat := Z.to_nat (Z.max 1 chunksize).
Let trace_of := loop_trace self count chunksize bundle_size.

Lemma verbose_dispatched : forall (b : bool) s,
    dispatched (if b then [StdoutWrite s] else []) = [].
Proof. now intros [|] s. Qed.

Lemma verbose_celery : forall (b : bool) s,
    celery (if b then [StdoutWrite s] else []) = [].
Proof. now intros [|] s. Qed.

Lemma verbose_progress : forall (b : bool) s,
    progress_lines (if b then [StdoutWrite s] else []) = [].
Proof. now intros [|] s. Qed.

(** Every sealed bundle reaches Celery, whatever the chunk size. *)
Lemma loop_dispatched : forall items p st ib,
    count = p + len items -> items <> [] ->
    dispatched (trace_of items p st ib) = st ++ map mk (groups B' ib items).
Proof.
  induction items as [|x items IH]; intros p st ib Hc Hne; [congruence|].
  unfold trace_of in *. cbn [loop_trace].
  rewrite !dispatched_app, verbose_dispatched.
  unfold len in Hc. simpl List.length in Hc.
  destruct items as [|y items].
  - (* the last item *)
    assert (E : (count =? p + 1) = true) by (apply Z.eqb_eq; simpl in Hc; lia).
    rewrite E.
    rewrite !orb_true_r, groups_last_run. simpl.
    unfold dispatched, waves. simpl. now rewrite !app_nil_r.
  - replace (count =? p + 1) with false
      by (symmetry; apply Z.eqb_neq; simpl List.length in Hc; lia).
    rewrite !orb_false_r.
    rewrite IH by loop_side.
    rewrite (size_test (ib ++ [x])) by apply snoc_not_nil.
    change (groups B' ib (x :: y :: items))
      with (if (B' <=? List.length (ib ++ [x]))%nat
            then (ib ++ [x]) :: groups B' [] (y :: items)
            else groups B' (ib ++ [x]) (y :: items)).
    fold B'. destruct (B' <=? List.length (ib ++ [x]))%nat.
    + destruct (len (st ++ [_]) >=? chunksize);
        unfold dispatched at 1 2, waves; cbn [flat_map concat app map];
        rewrite ?app_nil_r, <- ?app_assoc; reflexivity.
    + destruct (len st >=? chunksize);
        unfold dispatched at 1 2, waves; cbn [flat_map concat app map];
        rewrite ?app_nil_r, <- ?app_assoc; reflexivity.
Qed.

(** With a positive chunk size the task groups are the runs of
    [chunksize] bundles, each sent and joined before the next. *)
Lemma loop_celery : forall items p st ib,
    0 < chunksize ->
    count = p + len items -> items <> [] -> len st < chunksize ->
    celery (trace_of items p st ib)
    = flat_map wave_events (groups C' st (map mk (groups B' ib items))).
Proof.
  induction items as [|x items IH]; intros p st ib HC Hc Hne Hst;
    [congruence|].
  unfold trace_of in *. cbn [loop_trace].
  rewrite !celery_app, verbose_celery.
  unfold len in Hc. simpl List.length in Hc.
  destruct items as [|y items].
  - replace (count =? p + 1) with true
      by (symmetry; apply Z.eqb_eq; simpl in Hc; lia).
    rewrite !orb_true_r, groups_last_run. cbn [map].
    rewrite groups_last_run. reflexivity.
  - replace (count =? p + 1) with false
      by (symmetry; apply Z.eqb_neq; simpl List.length in Hc; lia).
    rewrite !orb_false_r.
    rewrite (size_test (ib ++ [x])) by apply snoc_not_nil.
    change (groups B' ib (x :: y :: items))
      with (if (B' <=? List.length (ib ++ [x]))%nat
            then (ib ++ [x]) :: groups B' [] (y :: items)
            else groups B' (ib ++ [x]) (y :: items)).
    fold B'. destruct (B' <=? List.length (ib ++ [x]))%nat.
    + cbn [map].
      change (groups C' st (mk (ib ++ [x]) :: ?ts))
        with (if (C' <=? List.length (st ++ [mk (ib ++ [x])]))%nat
              then (st ++ [mk (ib ++ [x])]) :: groups C' [] ts
              else groups C' (st ++ [mk (ib ++ [x])]) ts).
      rewrite (size_test (st ++ [_])) by apply snoc_not_nil.
      fold C'. fold (mk (ib ++ [x])).
      destruct (Nat.leb_spec C' (List.length (st ++ [mk (ib ++ [x])]))).
      * rewrite IH by loop_side.
        reflexivity.
      * rewrite IH by loop_side.
        reflexivity.
    + replace (len st >=? chunksize) with false
        by (symmetry; rewrite Z.geb_leb; apply Z.leb_gt; lia).
      rewrite IH by loop_side.
      reflexivity.
Qed.

(** One progress line per record. *)
Lemma loop_progress : forall items p st ib,
    progress_lines (trace_of items p st ib)
    = map (fun k => progress_text count (p + Z.of_nat k))
          (seq 1 (List.length items)).
Proof.
  induction items as [|x items IH]; intros p st ib; [reflexivity|].
  unfold trace_of in *. cbn [loop_trace].
  rewrite !progress_lines_app, verbose_progress, IH.
  match goal with
  | |- context [progress_lines (if ?b then _ else _)] =>
      replace (progress_lines (if b then [ApplyAsync _; Join] else []))
        with (@nil string) by (destruct b; reflexivity)
  end.
  cbn [List.length seq map app progress_lines flat_map].
  f_equal. rewrite <- (seq_shift (List.length items) 1), map_map.
  apply map_ext. intros k. f_equal. lia.
Qed.

End ChunkingTrace.

(** ** Arithmetic of the run sizes, in the integers of the source *)

Lemma ceil_div_of_nat : forall t n,
    (0 < n)%nat ->
    Z.of_nat (t / n + (if (t mod n =? 0)%nat then 0 else 1))
    = ceil_div (Z.of_nat t) (Z.of_nat n).
Proof.
  intros t n Hn. unfold ceil_div.
  pose proof (Nat.div_mod_eq t n) as E.
  pose proof (Nat.mod_upper_bound t n ltac:(lia)) as Hr.
  destruct (Nat.eqb_spec (t mod n) 0) as [R|R].
  - apply Z.div_unique with (r := Z.of_nat n - 1); [lia|].
    rewrite R in E. nia.
  - apply Z.div_unique with (r := Z.of_nat (t mod n) - 1); [lia|]. nia.
Qed.

Lemma last_map : forall {A B} (f : A -> B) (l : list A) d,
    last (map f l) (f d) = f (last l d).
Proof.
  intros A B f l d. induction l as [|a [|b l] IH]; try reflexivity.
  exact IH.
Qed.

Lemma joins_celery : forall tr, joins tr = joins (celery tr).
Proof.
  intros tr. unfold joins, celery. f_equal.
  induction tr as [|e tr IH]; [reflexivity|].
  destruct e; simpl; rewrite ?IH; reflexivity.
Qed.

Lemma joins_wave_events : forall ws,
    joins (flat_map wave_events ws) = len ws.
Proof.
  intros ws. unfold joins, len. f_equal.
  induction ws as [|w ws IH]; simpl; [reflexivity | now rewrite IH].
Qed.

Lemma waves_wave_events : forall ws, waves (flat_map wave_events ws) = ws.
Proof.
  induction ws as [|w ws IH]; simpl; [reflexivity | now rewrite IH].
Qed.

Lemma waves_celery : forall tr, waves (celery tr) = waves tr.
Proof.
  induction tr as [|e tr IH]; [reflexivity|].
  destruct e; simpl; rewrite ?IH; reflexivity.
Qed.

(** ** The chunking engine: bundles, waves and progress *)

Section ChunkingEngine.

Variable self : command.
Variable items : list record.
Variables chunksize bundle_size : Z.
Variable stdin : list string.

Hypothesis count_fits : len items <= sys_maxsize.

Let count := len items.
Let run := _chunk_queryset_into_tasks self items count chunksize bundle_size.
Let tr := loop_trace self count chunksize bundle_size items 0 [] []
          ++ [StdoutWrite LF].

Lemma engine_run : run stdin = (Return tt, stdin, tr).
Proof.
  unfold run, _chunk_queryset_into_tasks, bind.
  rewrite chunk_loop_run by (fold count; lia). reflexivity.
Qed.

Lemma engine_dispatched :
  dispatched tr
  = map (fun b => add_or_update_items b (self_solr_url self))
        (groups (Z.to_nat (Z.max 1 bundle_size)) [] items).
Proof.
  unfold tr. rewrite dispatched_app.
  destruct items as [|x l] eqn:E; [reflexivity|].
  rewrite loop_dispatched by (subst count; loop_side).
  unfold dispatched at 1, waves. simpl. now rewrite app_nil_r.
Qed.

Lemma engine_celery :
  0 < chunksize ->
  celery tr
  = flat_map wave_events
      (groups (Z.to_nat (Z.max 1 chunksize)) [] (dispatched tr)).
Proof.
  intros HC. rewrite engine_dispatched. unfold tr. rewrite celery_app.
  destruct items as [|x l] eqn:E; [reflexivity|].
  rewrite loop_celery by (subst count; loop_side).
  simpl. now rewrite app_nil_r.
Qed.

Lemma engine_progress :
  progress_lines tr
  = map (fun k => progress_text count (Z.of_nat k))
        (seq 1 (List.length items)).
Proof.
  unfold tr. rewrite progress_lines_app, loop_progress.
  simpl. now rewrite app_nil_r.
Qed.

End ChunkingEngine.

(** The number of bundles that reach Celery, for any bundle size: a size
    below one seals a bundle at every record, like size one. *)
Lemma engine_bundle_count :
  forall (self : command) (items : list record) (chunksize bundle_size : Z),
    len items <= sys_maxsize ->
    len (dispatched (loop_trace self (len items) chunksize bundle_size
                                items 0 [] [] ++ [StdoutWrite LF]))
    = ceil_div (len items) (Z.max 1 bundle_size).
Proof.
  intros self items chunksize bundle_size Hfit.
  set (B' := Z.to_nat (Z.max 1 bundle_size)).
  assert (HB' : (0 < B')%nat) by (unfold B'; lia).
  assert (EB : Z.of_nat B' = Z.max 1 bundle_size) by (unfold B'; lia).
  pose proof (engine_dispatched self items chunksize bundle_size Hfit) as E.
  cbv zeta in E. rewrite E. unfold len. rewrite length_map.
  rewrite <- (length_map (@List.length record)).
  fold B'. rewrite (sizes_groups B' HB' items []) by (simpl; lia).
  simpl List.length.
  rewrite length_run_sizes, ceil_div_of_nat by exact HB'.
  now rewrite EB.
Qed.

(** C1. Over a record sequence of length N, with bundle size B > 0, the
    engine runs to the end and hands to Celery ceil(N/B) bundles: each holds
    exactly B records except possibly the last, which holds N mod B records
    (B when B divides N); the last, partial bundle is sent like the others,
    and the bundles put end to end are the input sequence. *)
Theorem chunking_emits_every_bundle :
  forall (self : command) (items : list record) (chunksize bundle_size : Z)
         (stdin : list string),
    0 < bundle_size ->
    len items <= sys_maxsize ->
    exists tr bundles,
      _chunk_queryset_into_tasks self items (len items) chunksize bundle_size
                                 stdin
      = (Return tt, stdin, tr)
      /\ dispatched tr
         = map (fun b => add_or_update_items b (self_solr_url self)) bundles
      /\ len bundles = ceil_div (len items) bundle_size
      /\ (forall i, (S i < List.length bundles)%nat ->
                    len (nth i bundles []) = bundle_size)
      /\ (items <> [] ->
          len (last bundles [])
          = if len items mod bundle_size =? 0 then bundle_size
            else len items mod bundle_size)
      /\ concat bundles = items.
Proof.
  intros self items chunksize bundle_size stdin HB Hfit.
  set (B' := Z.to_nat (Z.max 1 bundle_size)).
  assert (HB' : (0 < B')%nat) by (unfold B'; lia).
  assert (EB : Z.of_nat B' = bundle_size) by (unfold B'; lia).
  pose proof (sizes_groups B' HB' items []) as Hs.
  specialize (Hs ltac:(simpl; lia)). simpl in Hs.
  eexists. exists (groups B' [] items).
  split; [apply engine_run; exact Hfit|].
  split; [apply engine_dispatched; exact Hfit|].
  split; [|split; [|split]].
  - unfold len at 1. rewrite <- (length_map (@List.length record)), Hs.
    rewrite length_run_sizes, ceil_div_of_nat by exact HB'.
    now rewrite EB.
  - intros i Hi. unfold len.
    change (@List.length record (nth i (groups B' [] items) []))
      with ((fun l => List.length l) (nth i (groups B' [] items) [])).
    rewrite <- (map_nth (@List.length record)), Hs.
    rewrite nth_run_sizes_full; [exact EB | exact HB' |].
    rewrite <- Hs, length_map. exact Hi.
  - intros Hne. unfold len at 1.
    change (@List.length record (last (groups B' [] items) []))
      with ((fun l => List.length l) (last (groups B' [] items) [])).
    rewrite <- (last_map (@List.length record)), Hs.
    rewrite last_run_sizes;
      [| exact HB' | destruct items; [congruence | simpl; lia]].
    unfold len. rewrite <- EB, <- Nat2Z.inj_mod.
    destruct (Nat.eqb_spec (List.length items mod B') 0) as [R|R].
    + rewrite R. reflexivity.
    + destruct (Z.eqb_spec (Z.of_nat (List.length items mod B')) 0);
        [lia | reflexivity].
  - apply (concat_groups B' items []).
Qed.

(** C2. With chunk size C > 0, whatever the M bundles the run seals (one
    for each run of [bundle_size] records), the task layer sees a sequence
    of task groups, each sent and then joined before anything else goes to
    it; the groups hold the M tasks in order, C of them each except possibly
    the last, none is empty, and the number of joins is ceil(M/C). *)
Theorem dispatch_joins_once_per_wave :
  forall (self : command) (items : list record) (chunksize bundle_size : Z)
         (stdin : list string),
    0 < chunksize ->
    len items <= sys_maxsize ->
    exists tr ws,
      _chunk_queryset_into_tasks self items (len items) chunksize bundle_size
                                 stdin
      = (Return tt, stdin, tr)
      /\ celery tr = flat_map wave_events ws
      /\ concat ws = dispatched tr
      /\ len (dispatched tr) = ceil_div (len items) (Z.max 1 bundle_size)
      /\ joins tr = ceil_div (len (dispatched tr)) chunksize
      /\ (forall i, (S i < List.length ws)%nat ->
                    len (nth i ws []) = chunksize)
      /\ Forall (fun w => w <> []) ws.
Proof.
  intros self items chunksize bundle_size stdin HC Hfit.
  set (C' := Z.to_nat (Z.max 1 chunksize)).
  assert (HC' : (0 < C')%nat) by (unfold C'; lia).
  assert (EC : Z.of_nat C' = chunksize) by (unfold C'; lia).
  set (tr := loop_trace self (len items) chunksize bundle_size items 0 [] []
             ++ [StdoutWrite LF]).
  pose proof (sizes_groups C' HC' (dispatched tr) []) as Hs.
  specialize (Hs ltac:(simpl; lia)). simpl in Hs.
  exists tr, (groups C' [] (dispatched tr)).
  split; [apply engine_run; exact Hfit|].
  split; [apply engine_celery; assumption|].
  split; [apply (concat_groups C' (dispatched tr) [])|].
  split; [apply engine_bundle_count; exact Hfit|].
  split; [|split].
  - rewrite joins_celery.
    pose proof (engine_celery self items chunksize bundle_size Hfit HC) as E.
    cbv zeta in E. fold tr in E. fold C' in E. rewrite E.
    rewrite joins_wave_events. unfold len.
    rewrite <- (length_map (@List.length task)), Hs.
    rewrite length_run_sizes, ceil_div_of_nat by exact HC'.
    now rewrite EC.
  - intros i Hi. unfold len.
    change (@List.length task (nth i (groups C' [] (dispatched tr)) []))
      with ((fun l => List.length l)
              (nth i (groups C' [] (dispatched tr)) [])).
    rewrite <- (map_nth (@List.length task)), Hs.
    rewrite nth_run_sizes_full; [exact EC | exact HC' |].
    rewrite <- Hs, length_map. exact Hi.
  - apply Forall_forall. intros w Hw Hnil. subst w.
    apply (in_map (@List.length task)) in Hw. rewrite Hs in Hw.
    unfold run_sizes in Hw. apply in_app_or in Hw. destruct Hw as [Hw|Hw].
    + apply repeat_spec in Hw. simpl in Hw. lia.
    + destruct (Nat.eqb_spec (List.length (dispatched tr) mod C') 0) as [R|R];
        simpl in Hw; [contradiction | destruct Hw as [Hw|[]]].
      simpl in Hw. lia.
Qed.

(** ** Floats in the range of counts

    The number of binary digits of a mantissa, what shifting and rounding do
    to it, and from there: on counts below [2^63] the ratio and the
    percentage are finite floats, far from the overflow threshold. *)

Lemma digits2_pos_bounds : forall p,
    2 ^ (Zpos (digits2_pos p) - 1) <= Zpos p < 2 ^ Zpos (digits2_pos p).
Proof.
  induction p as [p IH|p IH|]; cbn [digits2_pos].
  - rewrite Pos2Z.inj_succ.
    replace (Z.succ (Zpos (digits2_pos p)) - 1) with (Z.succ (Zpos (digits2_pos p) - 1)) by lia.
    rewrite !Z.pow_succ_r by lia. lia.
  - rewrite Pos2Z.inj_succ.
    replace (Z.succ (Zpos (digits2_pos p)) - 1) with (Z.succ (Zpos (digits2_pos p) - 1)) by lia.
    rewrite !Z.pow_succ_r by lia. lia.
  - simpl. lia.
Qed.

Lemma Zdigits2_nonneg : forall m, 0 <= Zdigits2 m.
Proof. intros [|p|p]; simpl; lia. Qed.

Lemma Zdigits2_le : forall m k, 0 <= m -> 0 <= k -> m < 2 ^ k -> Zdigits2 m <= k.
Proof.
  intros [|p|p] k Hm Hk H; simpl; try lia.
  pose proof (digits2_pos_bounds p) as [L _].
  destruct (Z.le_gt_cases (Zpos (digits2_pos p)) k) as [|G]; [assumption|].
  exfalso.
  assert (2 ^ k <= 2 ^ (Zpos (digits2_pos p) - 1)) by (apply Z.pow_le_mono_r; lia).
  lia.
Qed.

Lemma Zdigits2_lt_pow : forall m, 0 <= m -> m < 2 ^ Zdigits2 m.
Proof.
  intros [|p|p] Hm; simpl; try lia.
  apply digits2_pos_bounds.
Qed.

Lemma Zdigits2_ge_pow : forall m, 0 < m -> 2 ^ (Zdigits2 m - 1) <= m.
Proof.
  intros [|p|p] Hm; simpl; try lia.
  apply digits2_pos_bounds.
Qed.

Lemma shr_1_m : forall mrs, 0 <= shr_m mrs -> shr_m (shr_1 mrs) = shr_m mrs / 2.
Proof.
  intros [m r s] H. simpl in *.
  destruct m as [|[p|p|]|p]; simpl; try lia; try reflexivity.
  - rewrite Pos2Z.inj_xI. apply Z.div_unique with (r := 1); lia.
  - rewrite Pos2Z.inj_xO. apply Z.div_unique with (r := 0); lia.
Qed.

Lemma shr_iter_m : forall n mrs,
    0 <= shr_m mrs ->
    shr_m (iter_pos shr_1 n mrs) = shr_m mrs / 2 ^ Zpos n.
Proof.
  induction n as [n IH|n IH|]; intros mrs H; cbn [iter_pos].
  - assert (H1 : 0 <= shr_m (shr_1 mrs)) by (rewrite shr_1_m by lia; apply Z.div_pos; lia).
    assert (H2 : 0 <= shr_m (iter_pos shr_1 n (shr_1 mrs))) by (rewrite IH by lia; apply Z.div_pos; lia).
    rewrite IH by exact H2. rewrite IH by exact H1. rewrite shr_1_m by exact H.
    rewrite !Z.div_div by lia.
    f_equal. replace (Zpos n~1) with (1 + Zpos n + Zpos n) by lia.
    rewrite !Z.pow_add_r by lia. lia.
  - assert (H2 : 0 <= shr_m (iter_pos shr_1 n mrs)) by (rewrite IH by lia; apply Z.div_pos; lia).
    rewrite IH by exact H2. rewrite IH by exact H.
    rewrite !Z.div_div by lia.
    f_equal. replace (Zpos n~0) with (Zpos n + Zpos n) by lia.
    rewrite !Z.pow_add_r by lia. lia.
  - rewrite shr_1_m by exact H. reflexivity.
Qed.

Lemma fexp_eq : forall e, fexp prec emax e = Z.max (e - 53) (-1074).
Proof. reflexivity. Qed.

Lemma shr_record_of_loc_m : forall m l, shr_m (shr_record_of_loc m l) = m.
Proof. intros m [|[| |]]; reflexivity. Qed.

Lemma Zdigits2_shift : forall m p,
    0 <= m -> Zdigits2 (m / 2 ^ Zpos p) <= Z.max 0 (Zdigits2 m - Zpos p).
Proof.
  intros m p Hm.
  pose proof (Zdigits2_lt_pow m Hm) as Hd.
  pose proof (Zdigits2_nonneg m) as Hn.
  assert (Hp : 0 < 2 ^ Zpos p) by (apply Z.pow_pos_nonneg; lia).
  apply Zdigits2_le; [apply Z.div_pos; lia | lia |].
  destruct (Z.le_gt_cases (Zpos p) (Zdigits2 m)) as [L|G].
  - rewrite Z.max_r by lia.
    apply Z.div_lt_upper_bound; [lia|].
    rewrite <- Z.pow_add_r by lia.
    replace (Zpos p + (Zdigits2 m - Zpos p)) with (Zdigits2 m) by lia.
    exact Hd.
  - rewrite Z.max_l by lia. simpl.
    assert (2 ^ Zdigits2 m <= 2 ^ Zpos p) by (apply Z.pow_le_mono_r; lia).
    rewrite Z.div_small by lia. lia.
Qed.

Lemma shr_fexp_spec : forall m e l mrs e',
    0 <= m ->
    shr_fexp prec emax m e l = (mrs, e') ->
    0 <= shr_m mrs
    /\ e' = Z.max e (fexp prec emax (Zdigits2 m + e))
    /\ Zdigits2 (shr_m mrs) + e' <= Z.max (Zdigits2 m + e) e'
    /\ (0 < m -> -1021 <= Zdigits2 m + e \/ -1074 <= e -> 0 < shr_m mrs).
Proof.
  intros m e l mrs e' Hm H. unfold shr_fexp, shr in H.
  rewrite fexp_eq in *.
  pose proof (Zdigits2_nonneg m) as Hn.
  destruct (Z.max (Zdigits2 m + e - 53) (-1074) - e) as [|p|p] eqn:En;
    injection H as <- <-; rewrite ?shr_record_of_loc_m.
  - repeat split; try lia.
  - rewrite shr_iter_m by (rewrite shr_record_of_loc_m; exact Hm).
    rewrite shr_record_of_loc_m.
    pose proof (Zdigits2_shift m p Hm) as Hs.
    assert (Hp : 0 < 2 ^ Zpos p) by (apply Z.pow_pos_nonneg; lia).
    split; [apply Z.div_pos; lia|]. split; [lia|]. split; [lia|].
    intros Hpos Hr.
    assert (Zpos p = Zdigits2 m - 53) by lia.
    pose proof (Zdigits2_ge_pow m Hpos) as Hge.
    assert (2 ^ Zpos p <= 2 ^ (Zdigits2 m - 1)) by (apply Z.pow_le_mono_r; lia).
    assert (1 <= m / 2 ^ Zpos p); [|lia].
    apply Z.div_le_lower_bound; lia.
  - repeat split; try lia.
Qed.

Lemma rne_bounds : forall m l,
    m <= round_nearest_even m l <= m + 1.
Proof.
  intros m [|[| |]]; simpl; try lia. destruct (Z.even m); lia.
Qed.

Lemma Zdigits2_succ : forall m m', 0 <= m -> 0 <= m' -> m' <= m + 1 ->
    Zdigits2 m' <= Zdigits2 m + 1.
Proof.
  intros m m' Hm Hm' H.
  pose proof (Zdigits2_lt_pow m Hm). pose proof (Zdigits2_nonneg m).
  apply Zdigits2_le; try lia.
  rewrite Z.pow_add_r by lia. simpl (2 ^ 1). lia.
Qed.

(** Rounding a mantissa with room to spare: finite or zero, never infinite. *)
Lemma bra_bounds : forall sx mx ex lx,
    0 <= mx ->
    Z.max ex (Zdigits2 mx + ex - 52) <= 971 ->
    match binary_round_aux prec emax sx mx ex lx with
    | S754_zero s =>
        s = sx
        /\ (0 < mx -> -1021 <= Zdigits2 mx + ex \/ -1074 <= ex -> False)
    | S754_finite s m e =>
        s = sx
        /\ ex <= e <= Z.max (Z.max ex (Zdigits2 mx + ex - 52)) (-1074)
        /\ Zdigits2 (Zpos m) + e <= Z.max (Zdigits2 mx + ex) e + 1
    | _ => False
    end.
Proof.
  intros sx mx ex lx Hm Hb. unfold binary_round_aux.
  destruct (shr_fexp prec emax mx ex lx) as [mrs' e'] eqn:E1.
  destruct (shr_fexp_spec _ _ _ _ _ Hm E1) as [P1 [Ee1 [D1 Pos1]]].
  set (m'' := round_nearest_even (shr_m mrs') (loc_of_shr_record mrs')) in *.
  pose proof (rne_bounds (shr_m mrs') (loc_of_shr_record mrs')) as Hr.
  fold m'' in Hr.
  assert (Hm'' : 0 <= m'') by lia.
  pose proof (Zdigits2_succ (shr_m mrs') m'' P1 Hm'' ltac:(lia)) as Hd''.
  destruct (shr_fexp prec emax m'' e' loc_Exact) as [mrs'' e''] eqn:E2.
  destruct (shr_fexp_spec _ _ _ _ _ Hm'' E2) as [P2 [Ee2 [D2 Pos2]]].
  rewrite fexp_eq in *.
  destruct (shr_m mrs'') as [|m|m] eqn:Em.
  - split; [reflexivity|]. intros Hpos Hs.
    assert (0 < shr_m mrs') by (apply Pos1; lia).
    assert (0 < 0); [|lia]. apply Pos2; lia.
  - assert (Hle : (e'' <=? emax - prec) = true) by (apply Z.leb_le; unfold emax, prec; lia).
    rewrite Hle. split; [reflexivity|]. split; [lia|]. lia.
  - lia.
Qed.

Lemma iter_xO_pow : forall d m, Zpos (Pos.iter xO m d) = Zpos m * 2 ^ Zpos d.
Proof.
  induction d as [|d IH] using Pos.peano_ind; intros m.
  - simpl. lia.
  - rewrite Pos.iter_succ, Pos2Z.inj_xO, IH, Pos2Z.inj_succ.
    rewrite Z.pow_succ_r by lia. lia.
Qed.

Lemma Zdigits2_mul_pow : forall m k, 0 <= m -> 0 <= k ->
    Zdigits2 (m * 2 ^ k) <= Zdigits2 m + k.
Proof.
  intros m k Hm Hk.
  pose proof (Zdigits2_lt_pow m Hm). pose proof (Zdigits2_nonneg m).
  assert (0 < 2 ^ k) by (apply Z.pow_pos_nonneg; lia).
  apply Zdigits2_le; [nia | lia |].
  rewrite Z.pow_add_r by lia. nia.
Qed.

Lemma Zdigits2_mul : forall a b, 0 <= a -> 0 <= b ->
    Zdigits2 (a * b) <= Zdigits2 a + Zdigits2 b.
Proof.
  intros a b Ha Hb.
  pose proof (Zdigits2_lt_pow a Ha). pose proof (Zdigits2_lt_pow b Hb).
  pose proof (Zdigits2_nonneg a). pose proof (Zdigits2_nonneg b).
  apply Zdigits2_le; [nia | lia |].
  rewrite Z.pow_add_r by lia. nia.
Qed.

Lemma Zdigits2_mono : forall a b, 0 <= a <= b -> Zdigits2 a <= Zdigits2 b.
Proof.
  intros a b H.
  pose proof (Zdigits2_lt_pow b ltac:(lia)). pose proof (Zdigits2_nonneg b).
  apply Zdigits2_le; lia.
Qed.

Lemma Zdigits2_pos : forall m, 0 < m -> 1 <= Zdigits2 m.
Proof.
  intros m Hm. pose proof (Zdigits2_lt_pow m ltac:(lia)) as H.
  pose proof (Zdigits2_nonneg m).
  destruct (Z.eq_dec (Zdigits2 m) 0) as [E|E]; [|lia].
  rewrite E in H. simpl in H. lia.
Qed.

Lemma shl_align_spec : forall mx ex ex' mz ez,
    shl_align mx ex ex' = (mz, ez) ->
    ez = Z.min ex ex' /\ Zdigits2 (Zpos mz) + ez <= Zdigits2 (Zpos mx) + ex.
Proof.
  intros mx ex ex' mz ez H. unfold shl_align in H.
  destruct (ex' - ex) as [|d|d] eqn:En; injection H as <- <-.
  - split; lia.
  - split; lia.
  - rewrite iter_xO_pow.
    pose proof (Zdigits2_mul_pow (Zpos mx) (Zpos d) ltac:(lia) ltac:(lia)).
    split; lia.
Qed.

Lemma to_float_fits : forall z,
    0 < z < 2 ^ 63 ->
    is_finite_pos (to_float z) /\ fits (-52) 11 64 (to_float z).
Proof.
  intros z Hz. destruct z as [|p|p]; try lia.
  unfold to_float, binary_normalize, binary_round.
  rewrite fexp_eq.
  change (Zpos (digits2_pos p)) with (Zdigits2 (Zpos p)).
  pose proof (Zdigits2_pos (Zpos p) ltac:(lia)) as Hd1.
  assert (Hd2 : Zdigits2 (Zpos p) <= 63) by (apply Zdigits2_le; lia).
  destruct (shl_align p 0 (Z.max (Zdigits2 (Zpos p) + 0 - 53) (-1074)))
    as [mz ez] eqn:Es.
  destruct (shl_align_spec _ _ _ _ _ Es) as [Hez Hs].
  pose proof (Zdigits2_pos (Zpos mz) ltac:(lia)) as Hdz.
  pose proof (bra_bounds false (Zpos mz) ez loc_Exact ltac:(lia) ltac:(lia)) as B.
  destruct (binary_round_aux prec emax false (Zpos mz) ez loc_Exact)
    as [s|s| |s m e]; try contradiction.
  - exfalso. destruct B as [_ B]. apply B; lia.
  - destruct B as [-> [B1 B2]]. cbn [fits is_finite_pos].
    split; [exact I|]. repeat split; lia.
Qed.

Lemma SFmul_fits : forall lo1 hi1 top1 lo2 hi2 top2 x y,
    fits lo1 hi1 top1 x -> fits lo2 hi2 top2 y ->
    Z.max (hi1 + hi2) (top1 + top2 - 52) <= 971 ->
    fits (lo1 + lo2)
         (Z.max (Z.max (hi1 + hi2) (top1 + top2 - 52)) (-1074))
         (Z.max (top1 + top2)
                (Z.max (Z.max (hi1 + hi2) (top1 + top2 - 52)) (-1074)) + 1)
         (SFmul prec emax x y).
Proof.
  intros lo1 hi1 top1 lo2 hi2 top2 x y Hx Hy Hb.
  destruct x as [sx|sx| |sx mx ex], y as [sy|sy| |sy my ey];
    cbn [fits] in Hx, Hy; try contradiction.
  - subst. reflexivity.
  - destruct Hy as [-> _]. subst. reflexivity.
  - destruct Hx as [-> _]. subst. reflexivity.
  - destruct Hx as [-> [Hx1 Hx2]], Hy as [-> [Hy1 Hy2]].
    unfold SFmul. simpl xorb.
    pose proof (Zdigits2_mul (Zpos mx) (Zpos my) ltac:(lia) ltac:(lia)) as Hd.
    rewrite <- Pos2Z.inj_mul in Hd.
    pose proof (bra_bounds false (Zpos (mx * my)) (ex + ey) loc_Exact
                  ltac:(lia) ltac:(lia)) as B.
    destruct (binary_round_aux prec emax false (Zpos (mx * my)) (ex + ey)
                               loc_Exact) as [s|s| |s m e]; try contradiction.
    + cbn [fits]. apply B.
    + destruct B as [-> [B1 B2]]. cbn [fits]. repeat split; lia.
Qed.

Lemma SFdiv_fits : forall lo1 hi1 top1 lo2 hi2 x y,
    fits lo1 hi1 top1 x ->
    match y with
    | S754_finite false _ ey => lo2 <= ey <= hi2
    | _ => False
    end ->
    Z.max (hi1 - lo2) (top1 - lo2 - 52) <= 971 ->
    fits (Z.min (-1074) (lo1 - hi2))
         (Z.max (Z.max (hi1 - lo2) (top1 - lo2 - 52)) (-1074))
         (Z.max (top1 - lo2)
                (Z.max (Z.max (hi1 - lo2) (top1 - lo2 - 52)) (-1074)) + 1)
         (SFdiv prec emax x y).
Proof.
  intros lo1 hi1 top1 lo2 hi2 x y Hx Hy Hb.
  destruct y as [sy|sy| |[|] my ey]; try contradiction.
  destruct x as [sx|sx| |sx mx ex]; cbn [fits] in Hx; try contradiction.
  - subst. reflexivity.
  - destruct Hx as [-> [Hx1 Hx2]].
    unfold SFdiv, SFdiv_core_binary. simpl xorb.
    rewrite fexp_eq.
    set (e' := Z.min (Z.max (Zdigits2 (Zpos mx) + ex - (Zdigits2 (Zpos my) + ey) - 53) (-1074)) (ex - ey)).
    set (s := ex - ey - e').
    set (m' := match s with
               | 0 => Zpos mx
               | Zpos _ => Z.shiftl (Zpos mx) s
               | Zneg _ => 0
               end).
    assert (Hs : 0 <= s) by (unfold s, e'; lia).
    assert (Hm' : 0 <= m' /\ Zdigits2 m' <= Zdigits2 (Zpos mx) + s).
    { unfold m'. destruct s as [|ps|ps] eqn:Es; try lia.
      rewrite Z.shiftl_mul_pow2 by lia.
      split; [apply Z.mul_nonneg_nonneg; [lia | apply Z.pow_nonneg; lia]|].
      apply Zdigits2_mul_pow; lia. }
    destruct (Z.div_eucl m' (Zpos my)) as [q r] eqn:Ed.
    assert (Hq : q = m' / Zpos my) by (unfold Z.div; now rewrite Ed).
    assert (Hq0 : 0 <= q <= m').
    { rewrite Hq. split; [apply Z.div_pos; lia|].
      apply Z.div_le_upper_bound; [lia|]. nia. }
    pose proof (Zdigits2_mono q m' Hq0) as Hdq.
    assert (He' : e' <= ex - ey) by (unfold e'; lia).
    assert (He'' : Z.min (-1074) (lo1 - hi2) <= e') by (unfold e'; lia).
    assert (HS : Zdigits2 q + e' <= top1 - lo2) by (unfold s in *; lia).
    pose proof (bra_bounds false q e' (new_location (Zpos my) r)
                  ltac:(lia) ltac:(lia)) as B.
    destruct (binary_round_aux prec emax false q e'
                               (new_location (Zpos my) r))
      as [s0|s0| |s0 m e]; try contradiction.
    + cbn [fits]. apply B.
    + destruct B as [-> [B1 B2]]. cbn [fits]. repeat split; lia.
Qed.

Lemma round_half_even_nonneg : forall m e, 0 <= round_half_even m e.
Proof.
  intros m e. unfold round_half_even. destruct e as [|q|q].
  - lia.
  - apply Z.mul_nonneg_nonneg; [lia | apply Z.pow_nonneg; lia].
  - assert (0 < 2 ^ Zpos q) by (apply Z.pow_pos_nonneg; lia).
    assert (0 <= Zpos m / 2 ^ Zpos q) by (apply Z.div_pos; lia).
    destruct (2 * (Zpos m mod 2 ^ Zpos q) ?= 2 ^ Zpos q);
      [destruct (Z.even (Zpos m / 2 ^ Zpos q))| |]; lia.
Qed.

(** The percentage of [p] out of [c] prints as a natural number. *)
Lemma percent_of_counts : forall p c,
    0 < p <= sys_maxsize -> 0 < c <= sys_maxsize ->
    exists z,
      0 <= z
      /\ format_percent0
           (SFdiv prec emax (float_mul (to_float p) float_one) (to_float c))
         = str_of_int z +++ "%".
Proof.
  intros p c Hp Hc.
  assert (M : sys_maxsize < 2 ^ 63) by reflexivity.
  destruct (to_float_fits p ltac:(lia)) as [_ Fp].
  destruct (to_float_fits c ltac:(lia)) as [Pc Fc].
  destruct (to_float_fits 1 ltac:(lia)) as [_ F1].
  destruct (to_float_fits 100 ltac:(lia)) as [_ F100].
  change (to_float 1) with float_one in F1.
  change (to_float 100) with float_hundred in F100.
  pose proof (SFmul_fits _ _ _ _ _ _ _ _ Fp F1 ltac:(lia)) as Fx.
  fold (float_mul (to_float p) float_one) in Fx.
  assert (Fy : match to_float c with
               | S754_finite false _ ey => -52 <= ey <= 11
               | _ => False
               end).
  { destruct (to_float c) as [s|s| |[|] m e]; try contradiction.
    cbn [fits] in Fc. lia. }
  pose proof (SFdiv_fits _ _ _ _ _ _ _ Fx Fy ltac:(lia)) as Fq.
  pose proof (SFmul_fits _ _ _ _ _ _ _ _ Fq F100 ltac:(lia)) as Fr.
  unfold format_percent0. fold (float_mul (SFdiv prec emax (float_mul (to_float p) float_one) (to_float c)) float_hundred) in Fr.
  destruct (float_mul (SFdiv prec emax (float_mul (to_float p) float_one)
                             (to_float c)) float_hundred)
    as [s|s| |s m e]; cbn [fits] in Fr; try contradiction.
  - subst s. exists 0. split; [lia | reflexivity].
  - destruct Fr as [-> _]. exists (round_half_even m e).
    split; [apply round_half_even_nonneg | reflexivity].
Qed.

(** ** The progress lines *)

Lemma append_assoc : forall s t u, (s +++ t) +++ u = s +++ t +++ u.
Proof.
  induction s as [|c s IH]; intros t u; simpl; [reflexivity | now rewrite IH].
Qed.

(** C8. Over n records the engine writes n progress lines on [sys.stdout],
    one for each record whatever the bundle and chunk sizes; the k-th is a
    carriage return followed by [Processed k/n (z%)] with z a natural number
    printed without fractional part; for n = 3 they read 1/3 (33%),
    2/3 (67%), 3/3 (100%). *)
Theorem progress_line_after_each_record :
  forall (self : command) (items : list record) (chunksize bundle_size : Z)
         (stdin : list string),
    len items <= sys_maxsize ->
    exists tr,
      _chunk_queryset_into_tasks self items (len items) chunksize bundle_size
                                 stdin
      = (Return tt, stdin, tr)
      /\ progress_lines tr
         = map (fun k => progress_text (len items) (Z.of_nat k))
               (seq 1 (List.length items))
      /\ (forall k, 1 <= k <= len items ->
           exists z,
             0 <= z
             /\ progress_text (len items) k
                = CR +++ "Processed " +++ str_of_int k +++ "/"
                     +++ str_of_int (len items) +++ " (" +++ str_of_int z
                     +++ "%)")
      /\ (List.length items = 3%nat ->
          progress_lines tr
          = [CR +++ "Processed 1/3 (33%)"; CR +++ "Processed 2/3 (67%)";
             CR +++ "Processed 3/3 (100%)"]).
Proof.
  intros self items chunksize bundle_size stdin Hfit.
  eexists. split; [apply engine_run; exact Hfit|].
  pose proof (engine_progress self items chunksize bundle_size) as E.
  cbv zeta in E.
  split; [exact E|]. split.
  - intros k Hk. unfold progress_text, progress_format.
    destruct (percent_of_counts k (len items) ltac:(lia) ltac:(lia))
      as [z [Hz Ez]].
    exists z. rewrite Ez. split; [exact Hz|].
    now rewrite append_assoc.
  - intros H3. rewrite E. unfold len. rewrite H3. vm_compute. reflexivity.
Qed.

(** ** Waves in flight *)

Lemma serial_app : forall a b, serial a -> serial b -> serial (a ++ b).
Proof.
  intros a b Ha Hb. induction Ha; simpl; auto using serial.
Qed.

Lemma in_flight_nil : in_flight [] = 0%nat.
Proof. reflexivity. Qed.

Lemma in_flight_other : forall e tr,
    is_celery e = false -> in_flight (e :: tr) = in_flight tr.
Proof. intros e tr He. destruct e; try reflexivity; discriminate. Qed.

Lemma in_flight_wave : forall w tr,
    in_flight (ApplyAsync w :: Join :: tr) = in_flight tr.
Proof. reflexivity. Qed.

Lemma serial_in_flight : forall tr,
    serial tr ->
    forall pre suf, tr = pre ++ suf ->
      (in_flight pre <= 1)%nat
      /\ (forall w suf', suf = ApplyAsync w :: suf' -> in_flight pre = 0%nat).
Proof.
  induction 1 as [|e tr He Hs IH|w tr Hs IH]; intros pre suf E.
  - destruct pre; [|discriminate]. rewrite in_flight_nil. split; [lia | reflexivity].
  - destruct pre as [|e' pre].
    + rewrite in_flight_nil. split; [lia | reflexivity].
    + injection E as E1 E. subst e'. rewrite in_flight_other by exact He.
      exact (IH pre suf E).
  - destruct pre as [|e1 [|e2 pre]].
    + rewrite in_flight_nil. split; [lia | reflexivity].
    + injection E as E1 E2. subst e1 suf.
      split; [unfold in_flight; simpl; lia|].
      intros w' suf' Hw. discriminate.
    + injection E as E1 E2 E. subst e1 e2. rewrite in_flight_wave.
      exact (IH pre suf E).
Qed.

(** The traces of a sequence are serial when those of its parts are. *)
Lemma bind_serial : forall {A B} (m : M A) (f : A -> M B) i,
    serial (snd (m i)) ->
    (forall a i', serial (snd (f a i'))) ->
    serial (snd (bind m f i)).
Proof.
  intros A B m f i Hm Hf. unfold bind.
  destruct (m i) as [[r i'] t]. destruct r as [a|c|e]; simpl in *; auto.
  specialize (Hf a i'). destruct (f a i') as [[r' i''] t']. simpl in *.
  now apply serial_app.
Qed.

Lemma emit_serial : forall e i,
    is_celery e = false -> serial (snd (emit e i)).
Proof. intros e i He. simpl. now repeat constructor. Qed.

Lemma send_serial : forall (b : bool) w i,
    serial (snd (when b (bind (emit (ApplyAsync w)) (fun _ => emit Join)) i)).
Proof.
  intros [|] w i; simpl; [apply serial_wave|]; apply serial_nil.
Qed.

Lemma progress_line_serial : forall p c i, serial (snd (progress_line p c i)).
Proof.
  intros p c i. unfold progress_line, bind, lift.
  destruct (ratio p c); simpl; constructor.
Qed.

Lemma chunk_loop_serial :
  forall self count chunksize bundle_size items p st ib i,
    serial (snd (chunk_loop self count chunksize bundle_size items p st ib i)).
Proof.
  intros self count chunksize bundle_size.
  induction items as [|item items IH]; intros p st ib i.
  - apply serial_nil.
  - cbn [chunk_loop].
    apply bind_serial;
      [destruct (self_verbosity self >=? 2); simpl; repeat constructor|].
    intros _ i1. apply bind_serial; [apply send_serial|].
    intros _ i2. apply bind_serial; [apply progress_line_serial|].
    intros line i3. apply bind_serial; [now apply emit_serial|].
    intros _ i4. apply bind_serial; [now apply emit_serial|].
    intros _ i5. apply IH.
Qed.

(** C3. Whatever the records, the count and the sizes, and wherever the run
    stops, at most one task group is in flight at any point of the run, and
    none is in flight when a group is sent: the join on a group has returned
    before the next group goes out. *)
Theorem one_wave_in_flight :
  forall (self : command) (items : list record) (count chunksize bundle_size : Z)
         (stdin : list string) (pre suf : list event),
    snd (_chunk_queryset_into_tasks self items count chunksize bundle_size
                                    stdin)
    = pre ++ suf ->
    (in_flight pre <= 1)%nat
    /\ (forall w suf', suf = ApplyAsync w :: suf' -> in_flight pre = 0%nat).
Proof.
  intros self items count chunksize bundle_size stdin pre suf E.
  refine (serial_in_flight _ _ pre suf E).
  unfold _chunk_queryset_into_tasks.
  apply bind_serial; [apply chunk_loop_serial|].
  intros _ i. now apply emit_serial.
Qed.

(** *** The engine on three records, bundles of two, one bundle a wave *)

Lemma three_records_fit : len three_records <= sys_maxsize.
Proof. vm_compute. discriminate. Defined.

Lemma chunking_emits_every_bundle_witness :
  exists tr bundles,
    _chunk_queryset_into_tasks a_command three_records (len three_records)
                               1 2 []
    = (Return tt, [], tr)
    /\ dispatched tr
       = map (fun b => add_or_update_items b (self_solr_url a_command)) bundles
    /\ len bundles = ceil_div (len three_records) 2
    /\ (forall i, (S i < List.length bundles)%nat ->
                  len (nth i bundles []) = 2)
    /\ (three_records <> [] ->
        len (last bundles [])
        = if len three_records mod 2 =? 0 then 2
          else len three_records mod 2)
    /\ concat bundles = three_records.
Proof.
  apply (chunking_emits_every_bundle a_command three_records 1 2 []);
    [lia | exact three_records_fit].
Defined.

Lemma dispatch_joins_once_per_wave_witness :
  exists tr ws,
    _chunk_queryset_into_tasks a_command three_records (len three_records)
                               1 2 []
    = (Return tt, [], tr)
    /\ celery tr = flat_map wave_events ws
    /\ concat ws = dispatched tr
    /\ len (dispatched tr) = ceil_div (len three_records) (Z.max 1 2)
    /\ joins tr = ceil_div (len (dispatched tr)) 1
    /\ (forall i, (S i < List.length ws)%nat -> len (nth i ws []) = 1)
    /\ Forall (fun w => w <> []) ws.
Proof.
  apply (dispatch_joins_once_per_wave a_command three_records 1 2 []);
    [lia | exact three_records_fit].
Defined.

Lemma progress_line_after_each_record_witness :
  exists tr,
    _chunk_queryset_into_tasks a_command three_records (len three_records)
                               1 2 []
    = (Return tt, [], tr)
    /\ progress_lines tr
       = map (fun k => progress_text (len three_records) (Z.of_nat k))
             (seq 1 (List.length three_records))
    /\ (forall k, 1 <= k <= len three_records ->
         exists z,
           0 <= z
           /\ progress_text (len three_records) k
              = CR +++ "Processed " +++ str_of_int k +++ "/"
                   +++ str_of_int (len three_records) +++ " ("
                   +++ str_of_int z +++ "%)")
    /\ (List.length three_records = 3%nat ->
        progress_lines tr
        = [CR +++ "Processed 1/3 (33%)"; CR +++ "Processed 2/3 (67%)";
           CR +++ "Processed 3/3 (100%)"]).
Proof.
  apply (progress_line_after_each_record a_command three_records 1 2 []).
  exact three_records_fit.
Defined.

(** The run stopped after the first group was sent: one group in flight. *)
Lemma one_wave_in_flight_witness :
  let tr := snd (_chunk_queryset_into_tasks a_command three_records 3 1 2 []) in
  tr = firstn 3 tr ++ skipn 3 tr
  /\ (in_flight (firstn 3 tr) <= 1)%nat
  /\ (forall w suf', skipn 3 tr = ApplyAsync w :: suf' ->
                     in_flight (firstn 3 tr) = 0%nat).
Proof.
  intros tr. split; [symmetry; apply firstn_skipn|].
  apply (one_wave_in_flight a_command three_records 3 1 2 []).
  symmetry. apply firstn_skipn.
Defined.

(** Three records, bundles of two, one bundle a wave: two waves, each
    joined before the next record is read. *)
Example three_records_two_waves :
  celery (snd (_chunk_queryset_into_tasks a_command three_records 3 1 2 []))
  = [ApplyAsync [add_or_update_items [a_record 1; a_record 2]
                                     (self_solr_url a_command)];
     Join;
     ApplyAsync [add_or_update_items [a_record 3] (self_solr_url a_command)];
     Join].
Proof. reflexivity. Qed.

(** ** The confirmation gate *)

Lemma gate_override : forall count stdin,
    proceed_with_deletion count true stdin = (Return true, stdin, []).
Proof. reflexivity. Qed.

Lemma gate_small : forall count a1 rest,
    count <= 10000 ->
    exists tr,
      proceed_with_deletion count false (a1 :: rest)
      = (Return (affirmative a1), rest, tr)
      /\ prompts tr = 1 /\ index_untouched tr.
Proof.
  intros count a1 rest Hc.
  unfold proceed_with_deletion, bind, emit, raw_input, ret.
  assert (E : (count >? 10000) = false)
    by (rewrite Z.gtb_ltb; apply Z.ltb_ge; lia).
  destruct (affirmative a1); simpl; rewrite E; simpl;
    eexists; repeat split.
Qed.

Lemma gate_declined_first : forall count a1 rest,
    affirmative a1 = false ->
    exists tr,
      proceed_with_deletion count false (a1 :: rest) = (Return false, rest, tr)
      /\ prompts tr = 1 /\ index_untouched tr.
Proof.
  intros count a1 rest Ha.
  unfold proceed_with_deletion, bind, emit, raw_input, ret.
  rewrite Ha. simpl. rewrite andb_false_r. simpl.
  eexists; repeat split.
Qed.

Lemma gate_large : forall count a1 a2 rest,
    10000 < count -> affirmative a1 = true ->
    exists tr,
      proceed_with_deletion count false (a1 :: a2 :: rest)
      = (Return (affirmative a2), rest, tr)
      /\ prompts tr = 2 /\ index_untouched tr.
Proof.
  intros count a1 a2 rest Hc Ha.
  unfold proceed_with_deletion, bind, emit, raw_input, ret.
  assert (E : (count >? 10000) = true)
    by (rewrite Z.gtb_ltb; apply Z.ltb_lt; lia).
  rewrite Ha. simpl. rewrite E. simpl.
  destruct (affirmative a2); simpl; eexists; repeat split.
Qed.

(** The gate with two answers waiting: how many it reads and what it says. *)
Lemma gate_two_answers : forall count a1 a2 rest,
    exists tr,
      proceed_with_deletion count false (a1 :: a2 :: rest)
      = (Return (permitted count a1 a2),
         if (count <=? 10000) || negb (affirmative a1)
         then a2 :: rest else rest,
         tr)
      /\ prompts tr = (if (count <=? 10000) || negb (affirmative a1)
                       then 1 else 2)
      /\ index_untouched tr.
Proof.
  intros count a1 a2 rest. unfold permitted.
  destruct (Z.leb_spec count 10000) as [Hc|Hc].
  - destruct (gate_small count a1 (a2 :: rest) Hc) as [tr [E [P U]]].
    exists tr. rewrite E. simpl. rewrite andb_true_r. auto.
  - destruct (affirmative a1) eqn:Ha.
    + destruct (gate_large count a1 a2 rest Hc Ha) as [tr [E [P U]]].
      exists tr. rewrite E. simpl. auto.
    + destruct (gate_declined_first count a1 (a2 :: rest) Ha)
        as [tr [E [P U]]].
      exists tr. rewrite E. simpl. auto.
Qed.

(** ** The phases of [handle] *)

Section HandlePhases.

Variable env : environment.

Lemma setup_run : forall o i,
    index_available env o ->
    setup env o i = (Return (self_of o), i, setup_trace o).
Proof.
  intros o i Ha. unfold setup, self_of, setup_trace, index_available in *.
  destruct (opt_optimize_everything o); simpl; [reflexivity|].
  unfold bind, ExtraSolrInterface, emit. simpl.
  rewrite Ha by reflexivity. reflexivity.
Qed.

(** [optimize_everything] reads nothing and always returns. *)
Lemma optimize_each_run : forall urls i,
    optimize_each env urls i
    = (Return tt, i, snd (optimize_each env urls [])).
Proof.
  induction urls as [|url urls IH]; intros i; [reflexivity|].
  cbn [optimize_each]. unfold bind, try_except, ExtraSolrInterface, emit.
  simpl. destruct (schema_loads env (Some url)); simpl.
  - rewrite (IH i), (IH []). reflexivity.
  - rewrite (IH i), (IH []). reflexivity.
Qed.

Lemma optimize_everything_run : forall i,
    optimize_everything env i = (Return tt, i, optimize_everything_trace env).
Proof.
  intros i. unfold optimize_everything_trace, optimize_everything,
              print_timing, bind, emit.
  rewrite (optimize_each_run _ i), (optimize_each_run _ []). reflexivity.
Qed.

Lemma post_actions_opened : forall o i,
    opt_optimize_everything o = false ->
    post_actions env (opened o) o i
    = (Return tt, i, commit_trace o ++ optimize_trace o).
Proof.
  intros o i Hoe. unfold post_actions, commit_trace, optimize_trace.
  rewrite Hoe.
  destruct (opt_do_commit o), (opt_optimize o); reflexivity.
Qed.

Lemma post_actions_bare : forall o i,
    opt_optimize_everything o = true ->
    opt_do_commit o = false -> opt_optimize o = false ->
    post_actions env (bare o) o i
    = (Return tt, i, optimize_everything_trace env).
Proof.
  intros o i Hoe Hc Hopt. unfold post_actions.
  rewrite Hoe, Hc, Hopt. unfold when, bind, ret.
  rewrite optimize_everything_run. reflexivity.
Qed.

(** [handle], phase by phase. *)
Lemma handle_run : forall o i,
    index_available env o ->
    handle env o i
    = match primary_action env (self_of o) o i with
      | (Return _, i2, t2) =>
          match post_actions env (self_of o) o i2 with
          | (Return _, i3, t3) =>
              if no_action o
              then (SysExit 1, i3,
                    setup_trace o ++ t2 ++ t3 ++ [StderrWrite usage_message])
              else (Return tt, i3, setup_trace o ++ t2 ++ t3 ++ [])
          | (SysExit c, i3, t3) => (SysExit c, i3, setup_trace o ++ t2 ++ t3)
          | (Raise e, i3, t3) => (Raise e, i3, setup_trace o ++ t2 ++ t3)
          end
      | (SysExit c, i2, t2) => (SysExit c, i2, setup_trace o ++ t2)
      | (Raise e, i2, t2) => (Raise e, i2, setup_trace o ++ t2)
      end.
Proof.
  intros o i Ha. unfold handle, bind at 1. rewrite setup_run by exact Ha.
  unfold bind at 1.
  destruct (primary_action env (self_of o) o i) as [[r2 i2] t2].
  destruct r2 as [[]|c|e]; try reflexivity.
  unfold bind at 1.
  destruct (post_actions env (self_of o) o i2) as [[r3 i3] t3].
  destruct r3 as [[]|c|e]; try reflexivity.
  fold (no_action o). destruct (no_action o); reflexivity.
Qed.

End HandlePhases.

(** ** Computations that never call [sys.exit] *)

Lemma no_exit_ret : forall {A} (a : A), no_exit (ret a).
Proof. intros A a i c. discriminate. Qed.

Lemma no_exit_emit : forall e, no_exit (emit e).
Proof. intros e i c. discriminate. Qed.

Lemma no_exit_raise : forall {A} e, no_exit (@raise A e).
Proof. intros A e i c. discriminate. Qed.

Lemma no_exit_lift : forall {A} (x : exn + A), no_exit (lift x).
Proof. intros A [e|a] i c; discriminate. Qed.

Lemma no_exit_raw_input : forall s, no_exit (raw_input s).
Proof. intros s [|a i] c; discriminate. Qed.

Lemma no_exit_bind : forall {A B} (m : M A) (f : A -> M B),
    no_exit m -> (forall a, no_exit (f a)) -> no_exit (bind m f).
Proof.
  intros A B m f Hm Hf i c. unfold bind.
  specialize (Hm i). destruct (m i) as [[r i'] t].
  destruct r as [a|c'|e]; simpl in *.
  - specialize (Hf a i' c). destruct (f a i') as [[r' i''] t']. exact Hf.
  - exfalso. now apply (Hm c').
  - discriminate.
Qed.

Lemma no_exit_when : forall (b : bool) m, no_exit m -> no_exit (when b m).
Proof. intros [|] m Hm; [exact Hm | apply no_exit_ret]. Qed.

Lemma no_exit_try_except : forall {A} (m : M A) e h,
    no_exit m -> no_exit h -> no_exit (try_except m e h).
Proof.
  intros A m e h Hm Hh i c. unfold try_except.
  specialize (Hm i). destruct (m i) as [[r i'] t].
  destruct r as [a|c'|e']; simpl in *; try discriminate.
  - exfalso. now apply (Hm c').
  - destruct (exn_eqb e e'); [|discriminate].
    specialize (Hh i' c). destruct (h i') as [[r' i''] t']. exact Hh.
Qed.

(** Goes through a computation built from the pieces above. *)
Ltac no_exit_step :=
  first
    [ apply no_exit_ret | apply no_exit_emit | apply no_exit_raise
    | apply no_exit_lift | apply no_exit_raw_input
    | apply no_exit_when
    | apply no_exit_try_except
    | apply no_exit_bind; [| intros ?]
    | match goal with
      | |- no_exit (if ?b then _ else _) => destruct b
      | |- no_exit (match ?x with _ => _ end) => destruct x
      | |- no_exit (let '(_, _) := ?x in _) => destruct x
      end ].

Ltac no_exit_auto := repeat no_exit_step.

Lemma no_exit_gate : forall count noinput,
    no_exit (proceed_with_deletion count noinput).
Proof. intros. unfold proceed_with_deletion. no_exit_auto. Qed.

Lemma no_exit_chunk_loop :
  forall self count chunksize bundle_size items p st ib,
    no_exit (chunk_loop self count chunksize bundle_size items p st ib).
Proof.
  intros self count chunksize bundle_size.
  induction items as [|item items IH]; intros p st ib.
  - apply no_exit_ret.
  - cbn [chunk_loop]. unfold progress_line.
    repeat (apply no_exit_bind; [no_exit_auto | intros ?]).
    apply IH.
Qed.

Lemma no_exit_chunks : forall self items count chunksize bundle_size,
    no_exit (_chunk_queryset_into_tasks self items count chunksize bundle_size).
Proof.
  intros. unfold _chunk_queryset_into_tasks.
  apply no_exit_bind; [apply no_exit_chunk_loop | intros; apply no_exit_emit].
Qed.

Lemma no_exit_optimize_each : forall env urls,
    no_exit (optimize_each env urls).
Proof.
  intros env. induction urls as [|url urls IH]; [apply no_exit_ret|].
  cbn [optimize_each]. unfold ExtraSolrInterface.
  repeat (apply no_exit_bind; [no_exit_auto | intros ?]).
  apply IH.
Qed.

Lemma no_exit_post_actions : forall env self o,
    no_exit (post_actions env self o).
Proof.
  intros. unfold post_actions, optimize, optimize_everything, print_timing,
            get_si.
  repeat (apply no_exit_bind; [| intros ?]);
    try (apply no_exit_when);
    repeat first [ apply no_exit_optimize_each | no_exit_step ].
Qed.

Lemma no_exit_primary_action : forall env self o,
    update_by_query o = false ->
    no_exit (primary_action env self o).
Proof.
  intros env self o H. unfold update_by_query, datetime_given in H.
  unfold primary_action, add_or_update_all, add_or_update_by_datetime,
    add_or_update, delete_all, delete_by_datetime, delete_by_query, delete,
    print_timing, get_si, get_type.
  destruct (opt_update o); simpl in H.
  - apply no_exit_bind; [no_exit_auto | intros _].
    destruct (opt_everything o); simpl in H.
    + repeat first [ apply no_exit_chunks | apply no_exit_gate
                   | no_exit_step ].
    + destruct (opt_datetime o); simpl in H.
      * repeat first [ apply no_exit_chunks | apply no_exit_gate
                     | no_exit_step ].
      * rewrite H.
        repeat first [ apply no_exit_chunks | apply no_exit_gate
                     | no_exit_step ].
  - destruct (opt_delete o); [|apply no_exit_ret].
    apply no_exit_bind; [no_exit_auto | intros _].
    repeat first [ apply no_exit_chunks | apply no_exit_gate
                 | no_exit_step ].
Qed.

(** ** The command router *)

Lemma self_of_verbosity : forall o, self_verbosity (self_of o) = verbosity_of o.
Proof. intros o. unfold self_of. now destruct (opt_optimize_everything o). Qed.

Lemma no_action_flags : forall o,
    no_action o = true ->
    opt_update o = false /\ opt_delete o = false /\ opt_do_commit o = false
    /\ opt_optimize o = false /\ opt_optimize_everything o = false.
Proof.
  intros o H. unfold no_action, any in H. simpl in H.
  destruct (opt_update o), (opt_delete o), (opt_do_commit o),
    (opt_optimize o), (opt_optimize_everything o); try discriminate.
  repeat split.
Qed.

Lemma query_scope_alone : forall o,
    scope_exclusive o -> query_given o = true ->
    opt_everything o = false /\ opt_datetime o = None.
Proof.
  intros o Hx Hq. unfold scope_exclusive in Hx. unfold query_given in Hq.
  destruct (opt_query o) as [[|c q]|]; try discriminate.
  destruct (opt_everything o), (opt_datetime o), (opt_items o);
    simpl in Hx; try lia; split; reflexivity.
Qed.

Lemma primary_update_by_query : forall env self o i,
    opt_update o = true -> opt_everything o = false ->
    opt_datetime o = None -> query_given o = true ->
    primary_action env self o i
    = (SysExit 1, i,
       (if self_verbosity self >=? 1
        then [StdoutWrite ("Running in update mode..." +++ LF)] else [])
       ++ [StderrWrite "Updating by query not implemented."]).
Proof.
  intros env self o i Hu He Hd Hq. unfold primary_action.
  rewrite Hu, He, Hd, Hq. unfold bind, when, emit, sys_exit, ret.
  destruct (self_verbosity self >=? 1); reflexivity.
Qed.

(** C9. With the scope selectors exclusive and the index reachable, the
    command stops with a message on standard error and exit code 1 when no
    action flag is given and when update mode meets the query scope, and
    nowhere else; in both cases the index is not touched, and in the second
    the exit comes before the commit and optimize post-actions. *)
Theorem usage_errors :
  forall (env : environment) (o : options) (stdin : list string),
    scope_exclusive o ->
    index_available env o ->
    (no_action o = true ->
     handle env o stdin
     = (SysExit 1, stdin,
        [SolrOpen (opt_solr_url o) (Some "rw"); StderrWrite usage_message]))
    /\ (opt_update o = true -> query_given o = true ->
        handle env o stdin
        = (SysExit 1, stdin,
           setup_trace o ++ update_banner o
           ++ [StderrWrite "Updating by query not implemented."]))
    /\ (no_action o = true \/ (opt_update o = true /\ query_given o = true) ->
        index_untouched (snd (handle env o stdin)))
    /\ (forall c, fst (fst (handle env o stdin)) = SysExit c ->
                  c = 1
                  /\ (no_action o = true
                      \/ (opt_update o = true /\ query_given o = true))).
Proof.
  intros env o stdin Hx Ha.
  assert (Hnone : no_action o = true ->
     handle env o stdin
     = (SysExit 1, stdin,
        [SolrOpen (opt_solr_url o) (Some "rw"); StderrWrite usage_message])).
  { intros Hn. rewrite handle_run by exact Ha. rewrite Hn.
    destruct (no_action_flags o Hn) as [Hu [Hd [Hc [Hopt Hoe]]]].
    unfold primary_action, post_actions, setup_trace.
    rewrite Hu, Hd, Hc, Hopt, Hoe. reflexivity. }
  assert (Hquery : opt_update o = true -> query_given o = true ->
        handle env o stdin
        = (SysExit 1, stdin,
           setup_trace o ++ update_banner o
           ++ [StderrWrite "Updating by query not implemented."])).
  { intros Hu Hq. rewrite handle_run by exact Ha.
    destruct (query_scope_alone o Hx Hq) as [He Hd].
    rewrite primary_update_by_query by assumption.
    rewrite self_of_verbosity. reflexivity. }
  split; [exact Hnone|]. split; [exact Hquery|]. split.
  - intros [Hn|[Hu Hq]].
    + rewrite Hnone by exact Hn. reflexivity.
    + rewrite Hquery by assumption. unfold index_untouched, setup_trace,
        update_banner.
      destruct (opt_optimize_everything o), (verbosity_of o >=? 1);
        reflexivity.
  - intros c Hc.
    destruct (update_by_query o) eqn:Hq.
    + unfold update_by_query in Hq.
      apply andb_true_iff in Hq. destruct Hq as [Hq Hq4].
      apply andb_true_iff in Hq. destruct Hq as [Hq Hq3].
      apply andb_true_iff in Hq. destruct Hq as [Hq1 Hq2].
      rewrite Hquery in Hc by assumption. simpl in Hc.
      injection Hc as <-. auto.
    + rewrite handle_run in Hc by exact Ha.
      pose proof (no_exit_primary_action env (self_of o) o Hq stdin) as Hp.
      destruct (primary_action env (self_of o) o stdin) as [[r2 i2] t2].
      destruct r2 as [[]|c2|e2]; simpl in *.
      * pose proof (no_exit_post_actions env (self_of o) o i2) as Hpost.
        destruct (post_actions env (self_of o) o i2) as [[r3 i3] t3].
        destruct r3 as [[]|c3|e3]; simpl in *.
        -- destruct (no_action o); simpl in Hc; [|discriminate].
           injection Hc as <-. auto.
        -- exfalso. now apply (Hpost c3).
        -- discriminate.
      * exfalso. now apply (Hp c2).
      * discriminate.
Qed.

Lemma optimize_each_maintenance : forall env urls,
    Forall maintenance_event (snd (optimize_each env urls [])).
Proof.
  intros env. induction urls as [|url urls IH]; [constructor|].
  cbn [optimize_each]. unfold bind, try_except, ExtraSolrInterface, emit.
  simpl. destruct (schema_loads env (Some url)); simpl;
    rewrite (optimize_each_run env urls []); simpl;
    repeat (constructor; [simpl; auto|]); exact IH.
Qed.

Lemma optimize_everything_maintenance : forall env,
    Forall maintenance_event (optimize_everything_trace env).
Proof.
  intros env. unfold optimize_everything_trace, optimize_everything,
                print_timing, bind, emit.
  rewrite (optimize_each_run env _ []). simpl.
  constructor; [exact I|]. apply Forall_app. split.
  - apply optimize_each_maintenance.
  - repeat constructor.
Qed.

Lemma primary_no_scope : forall env self o i,
    opt_update o || opt_delete o = true -> no_scope o ->
    primary_action env self o i
    = (Return tt, i,
       if opt_update o
       then (if self_verbosity self >=? 1
             then [StdoutWrite ("Running in update mode..." +++ LF)] else [])
       else (if self_verbosity self >=? 1
             then [StdoutWrite ("Running in deletion mode..." +++ LF)]
             else [])).
Proof.
  intros env self o i Hm [He [Hd [Hq Hi]]]. unfold primary_action.
  unfold query_given in *. unfold items_given in Hi.
  rewrite He, Hd.
  destruct (opt_update o); simpl in Hm.
  - destruct (opt_query o) as [[|c q]|]; try discriminate;
      destruct (opt_items o) as [[|k l]|]; try discriminate;
      unfold bind, when, emit, ret;
      destruct (self_verbosity self >=? 1); reflexivity.
  - rewrite Hm.
    destruct (opt_query o) as [[|c q]|]; try discriminate;
      destruct (opt_items o) as [[|k l]|]; try discriminate;
      unfold bind, when, emit, ret;
      destruct (self_verbosity self >=? 1); reflexivity.
Qed.

(** C10. In update or delete mode with no scope selector, or with an empty
    id list, the mode contributes nothing but its banner: no task and no
    index operation; the command goes on to the post-actions asked for and
    returns normally (exit code 0) without the usage error. *)
Theorem mode_without_scope_does_nothing :
  forall (env : environment) (o : options) (stdin : list string),
    index_available env o ->
    opt_update o || opt_delete o = true ->
    no_scope o ->
    post_actions_can_run o ->
    exists tr_post,
      primary_action env (self_of o) o stdin
      = (Return tt, stdin, mode_banner o)
      /\ post_actions env (self_of o) o stdin = (Return tt, stdin, tr_post)
      /\ handle env o stdin
         = (Return tt, stdin, setup_trace o ++ mode_banner o ++ tr_post)
      /\ Forall maintenance_event (snd (handle env o stdin))
      /\ (opt_do_commit o = false -> opt_optimize o = false ->
          opt_optimize_everything o = false -> tr_post = []).
Proof.
  intros env o stdin Ha Hm Hs Hp.
  assert (Hprim : primary_action env (self_of o) o stdin
                  = (Return tt, stdin, mode_banner o)).
  { rewrite primary_no_scope by assumption.
    rewrite self_of_verbosity. reflexivity. }
  assert (Hno : no_action o = false).
  { unfold no_action, any. simpl.
    apply orb_true_iff in Hm. destruct Hm as [-> | ->]; simpl;
      [reflexivity | now rewrite orb_true_r]. }
  assert (Hpost : exists tr_post,
             post_actions env (self_of o) o stdin = (Return tt, stdin, tr_post)
             /\ Forall maintenance_event tr_post
             /\ (opt_do_commit o = false -> opt_optimize o = false ->
                 opt_optimize_everything o = false -> tr_post = [])).
  { unfold self_of, post_actions_can_run in *.
    destruct (opt_optimize_everything o) eqn:Hoe.
    - destruct (Hp eq_refl) as [Hc Hopt].
      exists (optimize_everything_trace env). split; [|split].
      + now apply post_actions_bare.
      + apply optimize_everything_maintenance.
      + discriminate.
    - exists (commit_trace o ++ optimize_trace o). split; [|split].
      + now apply post_actions_opened.
      + unfold commit_trace, optimize_trace.
        destruct (opt_do_commit o), (opt_optimize o); simpl;
          repeat constructor.
      + intros Hc Hopt _. unfold commit_trace, optimize_trace.
        now rewrite Hc, Hopt. }
  destruct Hpost as [tr_post [Hpost [Hmaint Hnil]]].
  exists tr_post.
  assert (Hh : handle env o stdin
               = (Return tt, stdin, setup_trace o ++ mode_banner o ++ tr_post)).
  { rewrite handle_run by exact Ha. rewrite Hprim, Hpost, Hno.
    now rewrite app_nil_r. }
  repeat split; try assumption.
  rewrite Hh. simpl. apply Forall_app. split.
  - unfold setup_trace. destruct (opt_optimize_everything o);
      repeat constructor.
  - apply Forall_app. split; [|exact Hmaint].
    unfold mode_banner, update_banner, delete_banner.
    destruct (opt_update o), (verbosity_of o >=? 1); repeat constructor.
Qed.

(** ** Bulk deletions behind the gate *)

Lemma gated_two_answers : forall count body a1 a2 rest,
    exists gate_tr,
      prompts gate_tr = (if (count <=? 10000) || negb (affirmative a1)
                         then 1 else 2)
      /\ index_untouched gate_tr
      /\ gated count false body (a1 :: a2 :: rest)
         = if permitted count a1 a2
           then (let '(r, i, t) :=
                   body (if (count <=? 10000) || negb (affirmative a1)
                         then a2 :: rest else rest) in
                 (r, i, gate_tr ++ t))
           else (Return tt,
                 if (count <=? 10000) || negb (affirmative a1)
                 then a2 :: rest else rest,
                 gate_tr).
Proof.
  intros count body a1 a2 rest.
  destruct (gate_two_answers count a1 a2 rest) as [tr [E [P U]]].
  exists tr. split; [exact P|]. split; [exact U|].
  unfold gated, bind. rewrite E.
  destruct (permitted count a1 a2); [reflexivity|].
  simpl. now rewrite app_nil_r.
Qed.

Lemma bind_ret_l : forall {A B} (a : A) (f : A -> M B) i,
    bind (ret a) f i = f a i.
Proof.
  intros A B a f i. unfold bind, ret.
  destruct (f a i) as [[r i'] t]. reflexivity.
Qed.

Lemma prompts_app : forall a b, prompts (a ++ b) = prompts a + prompts b.
Proof.
  intros a b. unfold prompts, len. rewrite filter_app, length_app. lia.
Qed.

(** [delete_all] with prompting on and two answers waiting. *)
Lemma delete_all_two_answers :
  forall (env : environment) (self : command) (si : solr) (count : Z)
         (a1 a2 : string) (rest : list string),
    self_si self = Some si ->
    self_noinput self = false ->
    index_count env (si_url si) = count ->
    let one_prompt := (count <=? 10000) || negb (affirmative a1) in
    exists tr,
      delete_all env self (a1 :: a2 :: rest)
      = (Return tt, if one_prompt then a2 :: rest else rest, tr)
      /\ prompts tr = (if one_prompt then 1 else 2)
      /\ if permitted count a1 a2
         then In (SolrDeleteAll (si_url si)) tr
              /\ In (SolrCommit (si_url si)) tr
         else index_untouched tr.
Proof.
  intros env self si count a1 a2 rest Hsi Hno Hcount one_prompt.
  set (stdin := a1 :: a2 :: rest).
  set (body :=
         (emit (StdoutWrite ("Removing all items from your index because "
                             +++ "you said so." +++ LF)) ;;
          emit (StdoutWrite ("  Marking all items as deleted..." +++ LF)) ;;
          si <- get_si self ;;
          emit (SolrDeleteAll (si_url si)) ;;
          emit (StdoutWrite ("  Committing the deletion..." +++ LF)) ;;
          si <- get_si self ;;
          emit (SolrCommit (si_url si)) ;;
          emit (StdoutWrite (LF +++ "Done. The index located at: "
                             +++ str_of_option_string (self_solr_url self)
                             +++ LF +++ "is now empty." +++ LF)))%monad).
  assert (E : delete_all env self stdin = gated count false body stdin).
  { unfold delete_all, gated, body, get_si. rewrite Hsi, Hno.
    rewrite bind_ret_l, Hcount. reflexivity. }
  destruct (gated_two_answers count body a1 a2 rest) as [gtr [P [U G]]].
  fold stdin one_prompt in G, P. rewrite E, G.
  destruct (permitted count a1 a2).
  - unfold body, get_si. rewrite Hsi. unfold bind, emit, ret. simpl.
    eexists. split; [reflexivity|]. split.
    + rewrite prompts_app, P. unfold prompts, len. simpl.
      destruct one_prompt; reflexivity.
    + split; apply in_or_app; right; simpl; auto 10.
  - exists gtr. auto.
Qed.

(** The two other bulk deletions stand behind the same gate. *)
Lemma gated_declined : forall count noinput body i left tr,
    proceed_with_deletion count noinput i = (Return false, left, tr) ->
    gated count noinput body i = (Return tt, left, tr).
Proof.
  intros count noinput body i left tr H. unfold gated, bind. rewrite H.
  simpl. now rewrite app_nil_r.
Qed.

Lemma delete_by_datetime_gated :
  forall (env : environment) (self : command) (ty : obj_type) (dt : datetime)
         (i : list string),
    self_type self = Some ty ->
    let qs := map pk (filter (fun r => date_created r >? dt_key dt)
                             (objects env ty)) in
    delete_by_datetime env self dt i
    = gated (len qs) (self_noinput self)
            (emit (StdoutWrite ("Deleting all item(s) newer than "
                                +++ dt_str dt +++ LF)) ;;
             si <- get_si self ;;
             emit (SolrDelete (si_url si) qs) ;;
             si <- get_si self ;;
             emit (SolrCommit (si_url si))) i.
Proof.
  intros env self ty dt i Hty qs.
  unfold delete_by_datetime, print_timing, get_type. rewrite Hty.
  rewrite bind_ret_l. reflexivity.
Qed.

Lemma delete_by_query_gated :
  forall (env : environment) (self : command) (si : solr) (query : string)
         (d : query_dict) (i : list string),
    self_si self = Some si ->
    literal_eval env query = inr (LitDict d) ->
    delete_by_query env self query i
    = gated (query_count env (si_url si) d) (self_noinput self)
            (emit (StdoutWrite ("Deleting all item(s) that match the query: "
                                +++ query +++ LF)) ;;
             si <- get_si self ;;
             emit (SolrDeleteQuery (si_url si) d) ;;
             si <- get_si self ;;
             emit (SolrCommit (si_url si))) i.
Proof.
  intros env self si query d i Hsi Hq.
  unfold delete_by_query, print_timing, get_si. rewrite Hsi, Hq.
  unfold lift. rewrite !bind_ret_l. reflexivity.
Qed.

(** The whole command in [--delete --everything] without post-actions:
    a declined confirmation ends in a normal return, the index untouched. *)
Lemma declined_delete_everything :
  forall (env : environment) (o : options) (a1 a2 : string)
         (rest : list string),
    index_available env o ->
    opt_update o = false -> opt_delete o = true -> opt_everything o = true ->
    opt_do_commit o = false -> opt_optimize o = false ->
    opt_optimize_everything o = false -> opt_noinput o = false ->
    permitted (index_count env (opt_solr_url o)) a1 a2 = false ->
    exists left tr,
      handle env o (a1 :: a2 :: rest) = (Return tt, left, tr)
      /\ index_untouched tr.
Proof.
  intros env o a1 a2 rest Ha Hu Hd He Hc Hopt Hoe Hno Hperm.
  rewrite handle_run by exact Ha.
  unfold self_of, setup_trace. rewrite Hoe.
  destruct (delete_all_two_answers env (opened o) _ _ a1 a2 rest
              eq_refl Hno eq_refl) as [tr [E [P T]]].
  cbn [si_url] in *. rewrite Hperm in T.
  unfold primary_action. rewrite Hu, Hd, He.
  unfold bind at 1.
  assert (W : forall i, when (self_verbosity (opened o) >=? 1)
                (emit (StdoutWrite ("Running in deletion mode..." +++ LF))) i
              = (Return tt, i, delete_banner o)).
  { intros i. unfold delete_banner. cbn [opened self_verbosity].
    destruct (verbosity_of o >=? 1); reflexivity. }
  rewrite W, E.
  rewrite post_actions_opened by exact Hoe.
  unfold commit_trace, optimize_trace, no_action, any. simpl.
  rewrite Hu, Hd, Hc, Hopt. simpl.
  eexists. eexists. split; [reflexivity|].
  unfold index_untouched in *. simpl.
  rewrite !existsb_app, T. unfold delete_banner.
  destruct (verbosity_of o >=? 1); reflexivity.
Qed.

(** C7. With prompting on and two answers waiting, the gate asks once when
    the count is at most 10,000 or the first answer declines, twice
    otherwise, and lets the deletion through exactly when every answer it
    read is affirmative; with the override it asks nothing and lets it
    through.  [delete_all] behind it returns normally in every case, marks
    everything deleted and commits when let through, and leaves the index
    untouched when not. *)
Theorem confirmation_gate :
  forall (env : environment) (self : command) (si : solr) (count : Z)
         (a1 a2 : string) (rest : list string),
    self_si self = Some si ->
    self_noinput self = false ->
    index_count env (si_url si) = count ->
    let stdin := a1 :: a2 :: rest in
    let one_prompt := (count <=? 10000) || negb (affirmative a1) in
    let left := if one_prompt then a2 :: rest else rest in
    (exists tr,
        proceed_with_deletion count false stdin
        = (Return (permitted count a1 a2), left, tr)
        /\ prompts tr = (if one_prompt then 1 else 2)
        /\ index_untouched tr)
    /\ proceed_with_deletion count true stdin = (Return true, stdin, [])
    /\ (exists tr,
           delete_all env self stdin = (Return tt, left, tr)
           /\ prompts tr = (if one_prompt then 1 else 2)
           /\ if permitted count a1 a2
              then In (SolrDeleteAll (si_url si)) tr
                   /\ In (SolrCommit (si_url si)) tr
              else index_untouched tr).
Proof.
  intros env self si count a1 a2 rest Hsi Hno Hcount stdin one_prompt left.
  split; [apply gate_two_answers|]. split; [reflexivity|].
  now apply delete_all_two_answers.
Qed.

(** ** Post-actions *)

(** C5, as the code has it.  When [--do-commit] is given without
    [--optimize-everything], the index can be opened and the primary action
    of the mode runs to its end, the commit is issued right after the
    primary action, and the optimize of the current index follows it when
    [--optimize] is given too; all this whatever the mode. *)
Theorem commit_follows_primary_action :
  forall (env : environment) (o : options) (stdin left : list string)
         (primary_trace : list event),
    opt_do_commit o = true ->
    opt_optimize_everything o = false ->
    schema_loads env (opt_solr_url o) = true ->
    primary_action env (opened o) o stdin = (Return tt, left, primary_trace) ->
    handle env o stdin
    = (Return tt, left,
       SolrOpen (opt_solr_url o) (Some "rw")
       :: primary_trace ++ SolrCommit (opt_solr_url o) :: optimize_trace o).
Proof.
  intros env o stdin left primary_trace Hc Hoe Hload Hprim.
  rewrite handle_run by (intros _; exact Hload).
  unfold self_of, setup_trace. rewrite Hoe, Hprim.
  rewrite post_actions_opened by exact Hoe.
  unfold no_action, any, commit_trace. simpl. rewrite Hc.
  rewrite !orb_true_r. simpl. rewrite app_nil_r. reflexivity.
Qed.

(** *** Commit alone, and commit with optimize-everything *)

Lemma commit_follows_primary_action_witness :
  handle an_environment commit_only []
  = (Return tt, [],
     SolrOpen the_url (Some "rw")
     :: [] ++ SolrCommit the_url :: optimize_trace commit_only).
Proof.
  apply (commit_follows_primary_action an_environment commit_only [] [] []);
    reflexivity.
Defined.

(** C5 as it is written fails: with [--do-commit --optimize-everything] no
    index is open, the commit raises AttributeError on [None] and no commit
    reaches any index. *)
Lemma commit_with_optimize_everything_fails :
  fst (fst (handle an_environment commit_and_optimize_everything []))
  = Raise AttributeError
  /\ forall url,
      ~ In (SolrCommit url)
           (snd (handle an_environment commit_and_optimize_everything [])).
Proof.
  split; [reflexivity|]. intros url H. vm_compute in H. exact H.
Qed.

(** ** Deleting by id *)

(** C4 at two ids: [handle] calls [self.delete(1, 2)], one argument too many
    for [def delete(self, items)]: TypeError, and no task is submitted.  At
    one id the task carries the bare id, not a list. *)
Theorem delete_by_ids_takes_one_argument :
  handle an_environment (delete_items_of [1; 2]) []
  = (Raise TypeError, [],
     [SolrOpen the_url (Some "rw");
      StdoutWrite ("Running in deletion mode..." +++ LF)])
  /\ handle an_environment (delete_items_of [7]) []
     = (Return tt, [],
        [SolrOpen the_url (Some "rw");
         StdoutWrite ("Running in deletion mode..." +++ LF);
         StdoutWrite ("Deleting items(s): 7" +++ LF);
         Delay (delete_items (PyInt 7) the_url)]).
Proof. split; reflexivity. Qed.

(** ** Selecting by creation time *)

(** C6 at a record created exactly at the timestamp: the update selects it
    (the filter is [date_created__gte]) and the deletion does not (the
    filter is [date_created__gt]). *)
Theorem update_by_datetime_takes_the_boundary :
  dispatched (snd (handle an_environment (by_datetime true) []))
  = [add_or_update_items [created 2 100; created 3 101] the_url]
  /\ In (SolrDelete the_url [3])
        (snd (handle an_environment (by_datetime false) [])).
Proof.
  split; [vm_compute; reflexivity|]. vm_compute. auto 10.
Qed.

(** ** The theorems above on the small installation *)

(** At exactly 10,000 items one question is asked. *)
Lemma confirmation_gate_witness :
  (exists tr,
      proceed_with_deletion 10000 false ["y"; "n"]
      = (Return true, ["n"], tr)
      /\ prompts tr = 1 /\ index_untouched tr)
  /\ proceed_with_deletion 10000 true ["y"; "n"] = (Return true, ["y"; "n"], [])
  /\ (exists tr,
         delete_all an_environment (opened no_flags) ["y"; "n"]
         = (Return tt, ["n"], tr)
         /\ prompts tr = 1
         /\ In (SolrDeleteAll the_url) tr /\ In (SolrCommit the_url) tr).
Proof.
  exact (confirmation_gate an_environment (opened no_flags)
           {| si_url := the_url; si_mode := Some "rw" |} 10000 "y" "n" []
           eq_refl eq_refl eq_refl).
Defined.

(** At 10,001 items a second question follows an affirmative answer, and
    declining it stops the deletion. *)
Example gate_at_10001 :
  exists tr,
    proceed_with_deletion 10001 false ["Yes"; "no"] = (Return false, [], tr)
    /\ prompts tr = 2.
Proof. eexists. split; reflexivity. Qed.

Lemma usage_errors_witness :
  (no_action no_flags = true ->
   handle an_environment no_flags []
   = (SysExit 1, [],
      [SolrOpen (opt_solr_url no_flags) (Some "rw");
       StderrWrite usage_message]))
  /\ (opt_update no_flags = true -> query_given no_flags = true ->
      handle an_environment no_flags []
      = (SysExit 1, [],
         setup_trace no_flags ++ update_banner no_flags
         ++ [StderrWrite "Updating by query not implemented."]))
  /\ (no_action no_flags = true
      \/ (opt_update no_flags = true /\ query_given no_flags = true) ->
      index_untouched (snd (handle an_environment no_flags [])))
  /\ (forall c,
         fst (fst (handle an_environment no_flags [])) = SysExit c ->
         c = 1
         /\ (no_action no_flags = true
             \/ (opt_update no_flags = true /\ query_given no_flags = true))).
Proof.
  apply (usage_errors an_environment no_flags []).
  - unfold scope_exclusive. simpl. lia.
  - intros _. reflexivity.
Defined.

(** [--update --query ...]: the exit comes before the commit asked for. *)
Example update_by_query_exits_first :
  handle an_environment
    {| opt_verbosity := Some 1; opt_noinput := false; opt_solr_url := the_url;
       opt_type := Some Opinion; opt_update := true; opt_delete := false;
       opt_optimize := true; opt_optimize_everything := false;
       opt_do_commit := true; opt_everything := false;
       opt_query := Some "{'court_id':'haw'}";
       opt_items := None; opt_datetime := None |} []
  = (SysExit 1, [],
     [SolrOpen the_url (Some "rw");
      StdoutWrite ("Running in update mode..." +++ LF);
      StderrWrite "Updating by query not implemented."]).
Proof. reflexivity. Qed.

Lemma mode_without_scope_does_nothing_witness :
  exists tr_post,
    primary_action an_environment (self_of update_no_items) update_no_items []
    = (Return tt, [], mode_banner update_no_items)
    /\ post_actions an_environment (self_of update_no_items) update_no_items []
       = (Return tt, [], tr_post)
    /\ handle an_environment update_no_items []
       = (Return tt, [],
          setup_trace update_no_items ++ mode_banner update_no_items
          ++ tr_post)
    /\ Forall maintenance_event (snd (handle an_environment update_no_items []))
    /\ (opt_do_commit update_no_items = false ->
        opt_optimize update_no_items = false ->
        opt_optimize_everything update_no_items = false -> tr_post = []).
Proof.
  apply (mode_without_scope_does_nothing an_environment update_no_items []).
  - intros _. reflexivity.
  - reflexivity.
  - repeat split.
  - intros H. discriminate H.
Defined.

(** * Further properties *)

(** ** Optimizing every index *)

Lemma optimize_each_projections : forall env urls,
    opened_indexes (snd (optimize_each env urls [])) = map Some urls
    /\ optimized (snd (optimize_each env urls []))
       = map Some (filter (fun u => schema_loads env (Some u)) urls)
    /\ schema_warnings (snd (optimize_each env urls []))
       = len (filter (fun u => negb (schema_loads env (Some u))) urls).
Proof.
  intros env. induction urls as [|url urls [IH1 [IH2 IH3]]].
  - repeat split.
  - cbn [optimize_each]. unfold bind, try_except, ExtraSolrInterface, emit.
    simpl. unfold schema_warnings, len in *.
    destruct (schema_loads env (Some url)) eqn:L; simpl;
      rewrite (optimize_each_run env urls []); simpl;
      rewrite IH1, IH2; repeat split; try reflexivity.
    + exact IH3.
    + rewrite !Zpos_P_of_succ_nat. now rewrite IH3.
Qed.

(** X1. [optimize_everything] always returns: it opens every configured
    index in order, optimizes exactly those whose schema loads, and writes
    one warning for each of the others. *)
Theorem optimize_everything_skips_unloadable :
  forall (env : environment) (stdin : list string),
  exists tr,
    optimize_everything env stdin = (Return tt, stdin, tr)
    /\ opened_indexes tr = map Some (SOLR_URLS env)
    /\ optimized tr
       = map Some (filter (fun u => schema_loads env (Some u)) (SOLR_URLS env))
    /\ schema_warnings tr
       = len (filter (fun u => negb (schema_loads env (Some u)))
                     (SOLR_URLS env)).
Proof.
  intros env stdin. exists (optimize_everything_trace env).
  split; [apply optimize_everything_run|].
  destruct (optimize_each_projections env (SOLR_URLS env)) as [P1 [P2 P3]].
  unfold optimize_everything_trace, optimize_everything, print_timing,
    bind, emit.
  rewrite (optimize_each_run env _ []). cbn [snd fst].
  unfold opened_indexes, optimized, schema_warnings in *.
  cbn [app flat_map filter is_schema_warning].
  rewrite !flat_map_app, !filter_app. simpl.
  rewrite !app_nil_r. repeat split; assumption.
Qed.

(** ** Updating by id *)

Lemma post_actions_run : forall env o i,
    post_actions_can_run o ->
    exists tr_post,
      post_actions env (self_of o) o i = (Return tt, i, tr_post)
      /\ Forall maintenance_event tr_post.
Proof.
  intros env o i Hp. unfold self_of, post_actions_can_run in *.
  destruct (opt_optimize_everything o) eqn:Hoe.
  - destruct (Hp eq_refl) as [Hc Hopt].
    exists (optimize_everything_trace env). split.
    + now apply post_actions_bare.
    + apply optimize_everything_maintenance.
  - exists (commit_trace o ++ optimize_trace o). split.
    + now apply post_actions_opened.
    + unfold commit_trace, optimize_trace.
      destruct (opt_do_commit o), (opt_optimize o); simpl; repeat constructor.
Qed.

Lemma maintenance_no_task : forall tr,
    Forall maintenance_event tr -> delays tr = [] /\ waves tr = [].
Proof.
  induction 1 as [|e tr He _ [IH1 IH2]]; [split; reflexivity|].
  destruct e; simpl in He; try contradiction; simpl; auto.
Qed.

Lemma delays_app : forall a b, delays (a ++ b) = delays a ++ delays b.
Proof. intros a b. apply flat_map_app. Qed.

Lemma waves_app : forall a b, waves (a ++ b) = waves a ++ waves b.
Proof. intros a b. apply flat_map_app. Qed.

(** X2. In update mode with a list of ids and nothing else as scope, the
    command returns normally having submitted, with [delay], exactly one
    task for the ids, the one of the model class; without a model class (no
    [--type], or under [--optimize-everything]) it submits nothing. No task
    group is sent. *)
Theorem update_by_ids_submits_one_task :
  forall (env : environment) (o : options) (stdin : list string)
         (k : Z) (ids : list Z),
    index_available env o ->
    post_actions_can_run o ->
    opt_update o = true ->
    opt_everything o = false -> opt_datetime o = None ->
    query_given o = false ->
    opt_items o = Some (k :: ids) ->
    exists tr,
      handle env o stdin = (Return tt, stdin, tr)
      /\ delays tr = update_task (self_type (self_of o)) (k :: ids)
      /\ waves tr = [].
Proof.
  intros env o stdin k ids Ha Hp Hu He Hd Hq Hi.
  destruct (post_actions_run env o stdin Hp) as [tr_post [Hpost Hm]].
  destruct (maintenance_no_task tr_post Hm) as [D W].
  assert (Hprim : exists t,
             primary_action env (self_of o) o stdin = (Return tt, stdin, t)
             /\ delays t = update_task (self_type (self_of o)) (k :: ids)
             /\ waves t = []).
  { unfold primary_action. rewrite Hu, He, Hd, Hq, Hi.
    unfold add_or_update, print_timing, type_is, bind, when, emit, ret.
    destruct (self_verbosity (self_of o) >=? 1);
      destruct (self_type (self_of o)) as [[| | |]|]; simpl;
      eexists; repeat split. }
  destruct Hprim as [t [Hprim [Dt Wt]]].
  assert (Hno : no_action o = false).
  { unfold no_action, any. simpl. now rewrite Hu. }
  eexists. split.
  - rewrite handle_run by exact Ha. rewrite Hprim, Hpost, Hno. reflexivity.
  - rewrite !delays_app, !waves_app, Dt, Wt, D, W.
    unfold setup_trace. destruct (opt_optimize_everything o); simpl;
      rewrite ?app_nil_r; split; reflexivity.
Qed.

Lemma update_by_ids_submits_one_task_witness :
  exists tr,
    handle an_environment
      {| opt_verbosity := Some 1; opt_noinput := false;
         opt_solr_url := the_url; opt_type := Some Audio;
         opt_update := true; opt_delete := false; opt_optimize := false;
         opt_optimize_everything := false; opt_do_commit := false;
         opt_everything := false; opt_query := None;
         opt_items := Some [4; 5]; opt_datetime := None |} []
    = (Return tt, [], tr)
    /\ delays tr = [add_or_update_audio_files [4; 5]]
    /\ waves tr = [].
Proof.
  apply (update_by_ids_submits_one_task an_environment
           {| opt_verbosity := Some 1; opt_noinput := false;
              opt_solr_url := the_url; opt_type := Some Audio;
              opt_update := true; opt_delete := false; opt_optimize := false;
              opt_optimize_everything := false; opt_do_commit := false;
              opt_everything := false; opt_query := None;
              opt_items := Some [4; 5]; opt_datetime := None |} [] 4 [5]);
    try reflexivity.
  - intros _. reflexivity.
  - intros H. discriminate H.
Defined.

(** ** Answers and the gate *)

Lemma ascii_lower_y : forall c : ascii,
    ascii_lower c = "y"%char <-> c = "y"%char \/ c = "Y"%char.
Proof.
  intros c. destruct c as [[|] [|] [|] [|] [|] [|] [|] [|]];
    (split;
     [ intros H; vm_compute in H; try discriminate H;
       first [left; reflexivity | right; reflexivity]
     | intros [H|H]; try discriminate H; reflexivity ]).
Qed.

(** X3. An answer is affirmative exactly when it starts with [y] or [Y]:
    the empty answer, like any other, declines. *)
Theorem affirmative_first_letter :
  forall s : string,
    affirmative s = true
    <-> exists rest, s = String "y" rest \/ s = String "Y" rest.
Proof.
  intros [|c rest].
  - split; [discriminate | intros [r [H|H]]; discriminate H].
  - unfold affirmative, startswith. cbn [lower prefix].
    destruct (ascii_dec "y" (ascii_lower c)) as [E|E].
    + symmetry in E. apply ascii_lower_y in E.
      split; [|intros _; destruct (lower rest); reflexivity].
      intros _. exists rest. destruct E as [-> | ->]; auto.
    + split; [discriminate|]. intros [r [H|H]]; injection H as Hc _;
        exfalso; apply E; symmetry; apply ascii_lower_y; auto.
Qed.

(** X4. Whatever the count, the override and the lines waiting, the gate
    never touches the index and never exits; it asks at most two questions
    and reads no line it has not asked for; and without the override it
    lets the deletion through only after an affirmative first answer and,
    above 10,000 items, an affirmative second one. *)
Theorem gate_is_safe :
  forall (count : Z) (noinput : bool) (stdin : list string),
    let '(r, unread, tr) := proceed_with_deletion count noinput stdin in
    index_untouched tr
    /\ prompts tr <= 2
    /\ (exists used, stdin = used ++ unread /\ len used <= prompts tr)
    /\ (forall c, r <> SysExit c)
    /\ (r = Return true ->
        noinput = true
        \/ exists a rest,
            stdin = a :: rest /\ affirmative a = true
            /\ (10000 < count ->
                exists a2 rest2, rest = a2 :: rest2 /\ affirmative a2 = true)).
Proof.
  intros count [|] stdin.
  - simpl. repeat split; try (cbn; lia); try discriminate; auto.
    exists []. split; [reflexivity | cbn; lia].
  - unfold proceed_with_deletion, bind, emit, raw_input, ret.
    destruct stdin as [|a rest].
    + simpl. repeat split; try (cbn; lia); try discriminate.
      exists []. split; [reflexivity | cbn; lia].
    + destruct (affirmative a) eqn:Ha; simpl.
      * destruct (Z.ltb_spec 10000 count) as [Hc|Hc];
          rewrite Z.gtb_ltb;
          [replace (10000 <? count) with true by (symmetry; now apply Z.ltb_lt)
          |replace (10000 <? count) with false by (symmetry; now apply Z.ltb_ge)];
          simpl.
        -- destruct rest as [|a2 rest2]; simpl.
           ++ repeat split; try (cbn; lia); try discriminate.
              exists [a]. split; [reflexivity | cbn; lia].
           ++ destruct (affirmative a2) eqn:Ha2; simpl;
                repeat split; try (cbn; lia); try discriminate;
                try (exists [a; a2]; split; [reflexivity | cbn; lia]).
              intros _. right. exists a, (a2 :: rest2).
              repeat split; auto. intros _. exists a2, rest2. auto.
        -- repeat split; try (cbn; lia); try discriminate.
           ++ exists [a]. split; [reflexivity | cbn; lia].
           ++ intros _. right. exists a, rest. repeat split; auto. lia.
      * rewrite andb_false_r. simpl.
        repeat split; try (cbn; lia); try discriminate.
        exists [a]. split; [reflexivity | cbn; lia].
Qed.

(** ** Deleting by creation time *)

(** X5. With the override, [delete_by_datetime] asks nothing and sends the
    index one delete followed by one commit; the keys deleted are those of
    the records of the store created strictly after the time given, so a
    record created exactly then is kept. *)
Theorem delete_by_datetime_selects_strictly_newer :
  forall (env : environment) (self : command) (ty : obj_type) (si : solr)
         (dt : datetime) (stdin : list string),
    self_type self = Some ty ->
    self_si self = Some si ->
    self_noinput self = true ->
    exists ids,
      delete_by_datetime env self dt stdin
      = (Return tt, stdin,
         [StdoutWrite ("Deleting all item(s) newer than " +++ dt_str dt
                       +++ LF);
          SolrDelete (si_url si) ids; SolrCommit (si_url si)])
      /\ (forall k,
             In k ids
             <-> exists r, In r (objects env ty) /\ pk r = k
                           /\ dt_key dt < date_created r).
Proof.
  intros env self ty si dt stdin Hty Hsi Hno.
  exists (map pk (filter (fun r => date_created r >? dt_key dt)
                         (objects env ty))).
  split.
  - unfold delete_by_datetime, print_timing, get_type, get_si.
    rewrite Hty, Hsi, Hno. reflexivity.
  - intros k. rewrite in_map_iff. split.
    + intros [r [Hk Hr]]. apply filter_In in Hr. destruct Hr as [Hin Hgt].
      exists r. repeat split; auto. apply Z.gtb_lt in Hgt. lia.
    + intros [r [Hin [Hk Hlt]]]. exists r. split; [exact Hk|].
      apply filter_In. split; [exact Hin|]. apply Z.gtb_lt. lia.
Qed.

Lemma delete_by_datetime_selects_strictly_newer_witness :
  exists ids,
    delete_by_datetime an_environment (opened (by_datetime false))
                       a_datetime []
    = (Return tt, [],
       [StdoutWrite ("Deleting all item(s) newer than "
                     +++ dt_str a_datetime +++ LF);
        SolrDelete the_url ids; SolrCommit the_url])
    /\ (forall k,
           In k ids
           <-> exists r, In r (objects an_environment Opinion) /\ pk r = k
                         /\ dt_key a_datetime < date_created r).
Proof.
  exact (delete_by_datetime_selects_strictly_newer an_environment
           (opened (by_datetime false)) Opinion
           {| si_url := the_url; si_mode := Some "rw" |} a_datetime []
           eq_refl eq_refl eq_refl).
Defined.

(** ** Optimize-everything with a scoped action *)

(** X6. Under [--optimize-everything] no index is opened and no model class
    is set, so an update or a deletion of everything, or of the records
    newer than a time, stops on AttributeError: nothing is read, no index is
    touched, and the optimize of every index does not run. *)
Theorem optimize_everything_excludes_scoped_actions :
  forall (env : environment) (o : options) (stdin : list string),
    opt_optimize_everything o = true ->
    opt_update o || opt_delete o = true ->
    opt_everything o = true \/ datetime_given o = true ->
    exists tr,
      handle env o stdin = (Raise AttributeError, stdin, tr)
      /\ index_untouched tr
      /\ opened_indexes tr = [].
Proof.
  intros env o stdin Hoe Hm Hs.
  assert (Ha : index_available env o) by (intros H; congruence).
  rewrite handle_run by exact Ha.
  unfold self_of, setup_trace. rewrite Hoe.
  unfold primary_action, add_or_update_all, add_or_update_by_datetime,
    delete_all, delete_by_datetime, print_timing, type_is, get_type, get_si,
    datetime_given in *.
  cbn [bare self_type self_si self_verbosity].
  unfold bind, when, emit, ret, raise.
  destruct (opt_update o); simpl in Hm.
  - destruct (opt_everything o).
    + destruct (verbosity_of o >=? 1); simpl;
        eexists; repeat split.
    + destruct (opt_datetime o) as [dt|]; [|destruct Hs; discriminate].
      destruct (verbosity_of o >=? 1); simpl; eexists; repeat split.
  - rewrite Hm. destruct (opt_everything o).
    + destruct (verbosity_of o >=? 1); simpl; eexists; repeat split.
    + destruct (opt_datetime o) as [dt|]; [|destruct Hs; discriminate].
      destruct (verbosity_of o >=? 1); simpl; eexists; repeat split.
Qed.

Lemma optimize_everything_excludes_scoped_actions_witness :
  exists tr,
    handle an_environment
      {| opt_verbosity := Some 1; opt_noinput := false;
         opt_solr_url := None; opt_type := Some Opinion;
         opt_update := true; opt_delete := false; opt_optimize := false;
         opt_optimize_everything := true; opt_do_commit := false;
         opt_everything := true; opt_query := None;
         opt_items := None; opt_datetime := None |} []
    = (Raise AttributeError, [], tr)
    /\ index_untouched tr
    /\ opened_indexes tr = [].
Proof.
  apply (optimize_everything_excludes_scoped_actions an_environment
           {| opt_verbosity := Some 1; opt_noinput := false;
              opt_solr_url := None; opt_type := Some Opinion;
              opt_update := true; opt_delete := false; opt_optimize := false;
              opt_optimize_everything := true; opt_do_commit := false;
              opt_everything := true; opt_query := None;
              opt_items := None; opt_datetime := None |} []);
    [reflexivity | reflexivity | left; reflexivity].
Defined.

(** ** The chunking engine at the edges of its parameters *)

Lemma joins_app : forall a b, joins (a ++ b) = joins a + joins b.
Proof.
  intros a b. unfold joins, len. rewrite filter_app, length_app. lia.
Qed.

Lemma stdout_lines_app : forall a b,
    stdout_lines (a ++ b) = stdout_lines a ++ stdout_lines b.
Proof. intros a b. apply flat_map_app. Qed.

Lemma sent_records_of_bundles : forall url (bundles : list (list record)),
    flat_map task_records (map (fun b => add_or_update_items b url) bundles)
    = concat bundles.
Proof.
  intros url. induction bundles as [|b bs IH]; [reflexivity|].
  simpl. now rewrite IH.
Qed.

(** The loop runs to its end whenever the counts are positive and fit,
    whether [count] is the number of records or not. *)
Lemma chunk_loop_run_any_count :
  forall self count chunksize bundle_size items p st ib i,
    0 <= p -> p + len items <= sys_maxsize -> 0 < count <= sys_maxsize ->
    chunk_loop self count chunksize bundle_size items p st ib i
    = (Return tt, i,
       loop_trace self count chunksize bundle_size items p st ib).
Proof.
  intros self count chunksize bundle_size.
  induction items as [|item items IH]; intros p st ib i Hp Hfit Hc.
  - reflexivity.
  - unfold len in Hfit. simpl List.length in Hfit.
    cbn [chunk_loop loop_trace]. unfold bind at 1.
    assert (Hw : forall (b : bool) e j,
               when b (emit e) j = (Return tt, j, if b then [e] else []))
      by (intros [|] ? ?; reflexivity).
    rewrite Hw. unfold bind at 1.
    match goal with
    | |- context [when ?b (bind (emit ?e1) (fun _ => emit ?e2)) i] =>
        replace (when b (bind (emit e1) (fun _ => emit e2)) i)
          with (Return tt, i, if b then [e1; e2] else [])
          by (destruct b; reflexivity)
    end.
    unfold bind at 1. rewrite progress_line_run by lia.
    unfold bind at 1, emit at 1. unfold bind at 1, emit at 1.
    rewrite IH by (unfold len; lia).
    simpl. reflexivity.
Qed.

Lemma groups_one : forall {A} (l : list A),
    groups 1 [] l = map (fun x => [x]) l.
Proof.
  intros A. induction l as [|x l IH]; [reflexivity|].
  simpl. now rewrite IH.
Qed.

Lemma groups_sizes : forall {A} n (l acc : list A),
    (0 < n)%nat -> (List.length acc < n)%nat ->
    Forall (fun g => (0 < List.length g <= n)%nat) (groups n acc l).
Proof.
  intros A n l. induction l as [|x l IH]; intros acc Hn Hacc; simpl.
  - destruct acc as [|a acc]; constructor; [simpl in *; lia | constructor].
  - destruct (Nat.leb_spec n (List.length (acc ++ [x]))) as [L|L].
    + constructor.
      * rewrite length_app in *. simpl in *. lia.
      * apply IH; simpl; lia.
    + apply IH; [exact Hn | exact L].
Qed.

Section EngineEdges.

Variable self : command.
Variables count chunksize bundle_size : Z.

Let trace_of := loop_trace self count chunksize bundle_size.
Let mk (b : list record) : task := add_or_update_items b (self_solr_url self).
Let B' : nat := Z.to_nat (Z.max 1 bundle_size).
Let C' : nat := Z.to_nat (Z.max 1 chunksize).

(** A chunk size below one: a join after every record. *)
Lemma loop_joins_every_record : forall items p st ib,
    chunksize <= 0 ->
    joins (trace_of items p st ib) = len items
    /\ len (waves (trace_of items p st ib)) = len items.
Proof.
  assert (Wapp : forall a b, len (waves (a ++ b)) = len (waves a) + len (waves b))
    by (intros a b; rewrite waves_app; unfold len; rewrite length_app; lia).
  assert (J0 : forall (b : bool) s,
             joins (if b then [StdoutWrite s] else []) = 0
             /\ len (waves (if b then [StdoutWrite s] else [])) = 0)
    by (intros [|] ?; split; reflexivity).
  induction items as [|x items IH]; intros p st ib HC; [split; reflexivity|].
  unfold trace_of in *. cbn [loop_trace].
  match goal with
  | |- context [if (len ?s >=? chunksize) || ?b then _ else _] =>
      assert (E : (len s >=? chunksize) || b = true)
        by (apply orb_true_iff; left; rewrite Z.geb_leb; apply Z.leb_le;
            unfold len; lia)
  end.
  rewrite E.
  destruct (IH (p + 1) [] (if (len (ib ++ [x]) >=? bundle_size)
                               || (count =? p + 1)
                           then [] else ib ++ [x]) HC) as [J W].
  rewrite !joins_app, !Wapp, J, W.
  destruct (J0 (self_verbosity self >=? 2)
               ("Indexing item " +++ str_of_int (pk x))) as [-> ->].
  change (joins [ApplyAsync ?w; Join]) with 1.
  change (len (waves [ApplyAsync ?w; Join])) with 1.
  change (joins [SysStdoutWrite ?l; StdoutFlush]) with 0.
  change (len (waves [SysStdoutWrite ?l; StdoutFlush])) with 0.
  unfold len. simpl List.length. split; lia.
Qed.

(** One line on [self.stdout] for each record when the verbosity is 2 or
    more, none otherwise. *)
Lemma loop_stdout_lines : forall items p st ib,
    stdout_lines (trace_of items p st ib)
    = if self_verbosity self >=? 2
      then map (fun r => "Indexing item " +++ str_of_int (pk r)) items
      else [].
Proof.
  induction items as [|x items IH]; intros p st ib.
  - now destruct (self_verbosity self >=? 2).
  - unfold trace_of in *. cbn [loop_trace].
    rewrite !stdout_lines_app, IH.
    match goal with
    | |- context [stdout_lines (if ?b then [ApplyAsync ?w; Join] else [])] =>
        replace (stdout_lines (if b then [ApplyAsync w; Join] else []))
          with (@nil string) by (destruct b; reflexivity)
    end.
    destruct (self_verbosity self >=? 2); reflexivity.
Qed.

(** With a count above the number of records no record is ever the last:
    only full bundles are sealed and only full groups are sent. *)
Lemma loop_celery_stale : forall items p st ib,
    0 < chunksize ->
    p + len items < count -> len st < chunksize ->
    celery (trace_of items p st ib)
    = flat_map wave_events
        (full_groups C' st (map mk (full_groups B' ib items))).
Proof.
  induction items as [|x items IH]; intros p st ib HC Hc Hst;
    [reflexivity|].
  unfold trace_of in *. cbn [loop_trace].
  rewrite !celery_app, verbose_celery.
  unfold len in Hc. simpl List.length in Hc.
  assert (E : (count =? p + 1) = false) by (apply Z.eqb_neq; lia).
  rewrite E, !orb_false_r.
  rewrite (size_test (ib ++ [x])) by apply snoc_not_nil.
  change (full_groups B' ib (x :: items))
    with (if (B' <=? List.length (ib ++ [x]))%nat
          then (ib ++ [x]) :: full_groups B' [] items
          else full_groups B' (ib ++ [x]) items).
  fold B'. destruct (B' <=? List.length (ib ++ [x]))%nat.
  - cbn [map].
    change (full_groups C' st (mk (ib ++ [x]) :: ?ts))
      with (if (C' <=? List.length (st ++ [mk (ib ++ [x])]))%nat
            then (st ++ [mk (ib ++ [x])]) :: full_groups C' [] ts
            else full_groups C' (st ++ [mk (ib ++ [x])]) ts).
    rewrite (size_test (st ++ [_])) by apply snoc_not_nil.
    fold C'. fold (mk (ib ++ [x])).
    destruct (Nat.leb_spec C' (List.length (st ++ [mk (ib ++ [x])]))).
    + rewrite IH by loop_side. reflexivity.
    + rewrite IH by loop_side. reflexivity.
  - assert (E' : (len st >=? chunksize) = false)
      by (rewrite Z.geb_leb; apply Z.leb_gt; lia).
    rewrite E'. rewrite IH by loop_side. reflexivity.
Qed.

End EngineEdges.

Lemma full_groups_split : forall {A} n (l acc : list A),
    (0 < n)%nat -> (List.length acc < n)%nat ->
    Forall (fun g => List.length g = n) (full_groups n acc l)
    /\ exists rest,
        acc ++ l = concat (full_groups n acc l) ++ rest
        /\ (List.length rest < n)%nat.
Proof.
  intros A n l. induction l as [|x l IH]; intros acc Hn Hacc; simpl.
  - split; [constructor|]. exists acc. split; [now rewrite app_nil_r | exact Hacc].
  - destruct (Nat.leb_spec n (List.length (acc ++ [x]))) as [L|L].
    + destruct (IH [] Hn ltac:(simpl; lia)) as [F [rest [E R]]].
      split.
      * constructor; [rewrite length_app in *; simpl in *; lia | exact F].
      * exists rest. split; [|exact R].
        simpl in E. cbn [concat]. rewrite <- !app_assoc. cbn [app].
        now rewrite <- E.
    + destruct (IH (acc ++ [x]) Hn L) as [F [rest [E R]]].
      split; [exact F|]. exists rest. split; [|exact R].
      rewrite <- E. now rewrite <- app_assoc.
Qed.

Lemma length_concat_uniform : forall {A} n (gs : list (list A)),
    Forall (fun g => List.length g = n) gs ->
    List.length (concat gs) = (List.length gs * n)%nat.
Proof.
  intros A n gs H. induction H as [|g gs Hg _ IH]; [reflexivity|].
  simpl. rewrite length_app, IH, Hg. lia.
Qed.

Lemma flat_map_length_le : forall {A B} (f : A -> list B) n (l : list A),
    (forall a, In a l -> (List.length (f a) <= n)%nat) ->
    (List.length (flat_map f l) <= List.length l * n)%nat.
Proof.
  intros A B f n. induction l as [|a l IH]; intros H; [simpl; lia|].
  simpl. rewrite length_app.
  pose proof (H a (or_introl eq_refl)).
  specialize (IH (fun b Hb => H b (or_intror Hb))). lia.
Qed.

Lemma engine_sent_records :
  forall (self : command) (items : list record) (chunksize bundle_size : Z),
    len items <= sys_maxsize ->
    sent_records (loop_trace self (len items) chunksize bundle_size
                             items 0 [] [] ++ [StdoutWrite LF])
    = items.
Proof.
  intros self items chunksize bundle_size Hfit. unfold sent_records.
  pose proof (engine_dispatched self items chunksize bundle_size Hfit) as E.
  cbv zeta in E. rewrite E, sent_records_of_bundles.
  apply (concat_groups _ items []).
Qed.

(** X7. With a chunk size of zero or less the engine joins after every
    record: as many task groups and joins as records, some of the groups
    empty, and every record still sent once, in order. *)
Theorem nonpositive_chunk_size_joins_every_record :
  forall (self : command) (items : list record) (chunksize bundle_size : Z)
         (stdin : list string),
    chunksize <= 0 ->
    len items <= sys_maxsize ->
    exists tr,
      _chunk_queryset_into_tasks self items (len items) chunksize bundle_size
                                 stdin
      = (Return tt, stdin, tr)
      /\ joins tr = len items
      /\ len (waves tr) = len items
      /\ sent_records tr = items.
Proof.
  intros self items chunksize bundle_size stdin HC Hfit.
  eexists. split; [apply engine_run; exact Hfit|].
  destruct (loop_joins_every_record self (len items) chunksize bundle_size
              items 0 [] [] HC) as [J W].
  split; [|split].
  - rewrite joins_app, J. unfold joins, len. simpl. lia.
  - rewrite waves_app. unfold len in *. rewrite length_app, Nat2Z.inj_add, W.
    simpl. lia.
  - apply engine_sent_records. exact Hfit.
Qed.

Lemma nonpositive_chunk_size_joins_every_record_witness :
  exists tr,
    _chunk_queryset_into_tasks a_command three_records (len three_records)
                               0 2 []
    = (Return tt, [], tr)
    /\ joins tr = len three_records
    /\ len (waves tr) = len three_records
    /\ sent_records tr = three_records.
Proof.
  apply (nonpositive_chunk_size_joins_every_record a_command three_records
           0 2 []); [lia | exact three_records_fit].
Defined.

(** X8. With a bundle size of one or less every record is a bundle of its
    own: one task for each record, in order. *)
Theorem small_bundle_size_one_task_per_record :
  forall (self : command) (items : list record) (chunksize bundle_size : Z)
         (stdin : list string),
    bundle_size <= 1 ->
    len items <= sys_maxsize ->
    exists tr,
      _chunk_queryset_into_tasks self items (len items) chunksize bundle_size
                                 stdin
      = (Return tt, stdin, tr)
      /\ dispatched tr
         = map (fun r => add_or_update_items [r] (self_solr_url self)) items.
Proof.
  intros self items chunksize bundle_size stdin HB Hfit.
  eexists. split; [apply engine_run; exact Hfit|].
  pose proof (engine_dispatched self items chunksize bundle_size Hfit) as E.
  cbv zeta in E. rewrite E.
  replace (Z.to_nat (Z.max 1 bundle_size)) with 1%nat by lia.
  rewrite groups_one, map_map. reflexivity.
Qed.

Lemma small_bundle_size_one_task_per_record_witness :
  exists tr,
    _chunk_queryset_into_tasks a_command three_records (len three_records)
                               50 0 []
    = (Return tt, [], tr)
    /\ dispatched tr
       = map (fun r => add_or_update_items [r] (self_solr_url a_command))
             three_records.
Proof.
  apply (small_bundle_size_one_task_per_record a_command three_records
           50 0 []); [lia | exact three_records_fit].
Defined.

(** X9. Bounded fan-out: with positive sizes every task group holds between
    one and [chunksize] tasks and carries at most [chunksize * bundle_size]
    records. *)
Theorem waves_are_bounded :
  forall (self : command) (items : list record) (chunksize bundle_size : Z)
         (stdin : list string),
    0 < chunksize -> 0 < bundle_size ->
    len items <= sys_maxsize ->
    exists tr,
      _chunk_queryset_into_tasks self items (len items) chunksize bundle_size
                                 stdin
      = (Return tt, stdin, tr)
      /\ Forall (fun w => 0 < len w <= chunksize
                          /\ len (flat_map task_records w)
                             <= chunksize * bundle_size)
                (waves tr).
Proof.
  intros self items chunksize bundle_size stdin HC HB Hfit.
  set (C' := Z.to_nat (Z.max 1 chunksize)).
  set (B' := Z.to_nat (Z.max 1 bundle_size)).
  set (tr := loop_trace self (len items) chunksize bundle_size items 0 [] []
             ++ [StdoutWrite LF]).
  exists tr. split; [apply engine_run; exact Hfit|].
  pose proof (engine_celery self items chunksize bundle_size Hfit HC) as E.
  cbv zeta in E. fold tr C' in E.
  pose proof (engine_dispatched self items chunksize bundle_size Hfit) as D.
  cbv zeta in D. fold tr B' in D.
  assert (W : waves tr = groups C' [] (dispatched tr))
    by (rewrite <- waves_celery, E; apply waves_wave_events).
  pose proof (groups_sizes C' (dispatched tr) [] ltac:(unfold C'; lia)
                ltac:(simpl; unfold C'; lia)) as S.
  pose proof (groups_sizes B' items [] ltac:(unfold B'; lia)
                ltac:(simpl; unfold B'; lia)) as SB.
  rewrite W. apply Forall_forall. intros w Hw.
  rewrite Forall_forall in S, SB. specialize (S w Hw).
  assert (Hlen : len w <= chunksize) by (unfold len, C' in *; lia).
  split; [unfold len; lia|].
  assert (Ht : forall t, In t w ->
                         (List.length (task_records t) <= B')%nat).
  { intros t Hin.
    assert (Hd : In t (dispatched tr)).
    { pose proof (concat_groups C' (dispatched tr) []) as CG.
      cbn [app] in CG. rewrite <- CG.
      apply in_concat. exists w. split; assumption. }
    rewrite D in Hd. apply in_map_iff in Hd. destruct Hd as [b [<- Hb]].
    simpl. specialize (SB b Hb). lia. }
  pose proof (flat_map_length_le task_records B' w Ht) as L.
  unfold len in *.
  assert (Z.of_nat B' = bundle_size) by (unfold B'; lia).
  nia.
Qed.

Lemma waves_are_bounded_witness :
  exists tr,
    _chunk_queryset_into_tasks a_command three_records (len three_records)
                               50 250 []
    = (Return tt, [], tr)
    /\ Forall (fun w => 0 < len w <= 50
                        /\ len (flat_map task_records w) <= 50 * 250)
              (waves tr).
Proof.
  apply (waves_are_bounded a_command three_records 50 250 []);
    [lia | lia | exact three_records_fit].
Defined.

(** X10. When [count] is larger than the number of records no record is
    taken for the last: the engine still returns normally, but it sends only
    whole groups of whole bundles, and the records left over,
    [N mod (bundle_size * chunksize)] of them at the end of the sequence,
    are never sent. *)
Theorem overstated_count_leaves_the_tail :
  forall (self : command) (items : list record) (count chunksize bundle_size : Z)
         (stdin : list string),
    0 < chunksize -> 0 < bundle_size ->
    len items < count -> count <= sys_maxsize ->
    exists tr pending,
      _chunk_queryset_into_tasks self items count chunksize bundle_size stdin
      = (Return tt, stdin, tr)
      /\ items = sent_records tr ++ pending
      /\ len pending = len items mod (bundle_size * chunksize).
Proof.
  intros self items count chunksize bundle_size stdin HC HB Hlt Hmax.
  set (C' := Z.to_nat (Z.max 1 chunksize)).
  set (B' := Z.to_nat (Z.max 1 bundle_size)).
  set (mk := fun b : list record => add_or_update_items b (self_solr_url self)).
  set (FB := full_groups B' [] items).
  set (FW := full_groups C' [] (map mk FB)).
  set (tr := loop_trace self count chunksize bundle_size items 0 [] []
             ++ [StdoutWrite LF]).
  assert (Hrun : _chunk_queryset_into_tasks self items count chunksize
                   bundle_size stdin = (Return tt, stdin, tr)).
  { unfold _chunk_queryset_into_tasks, bind.
    rewrite chunk_loop_run_any_count by (unfold len in *; lia).
    reflexivity. }
  assert (Hcel : celery tr = flat_map wave_events FW).
  { unfold tr. rewrite celery_app.
    rewrite (loop_celery_stale self count chunksize bundle_size items 0 [] [])
      by (try assumption; unfold len in *; simpl; lia).
    simpl. now rewrite app_nil_r. }
  assert (Hdis : dispatched tr = concat FW).
  { unfold dispatched. rewrite <- waves_celery, Hcel.
    now rewrite waves_wave_events. }
  destruct (full_groups_split C' (map mk FB) [] ltac:(unfold C'; lia)
              ltac:(simpl; unfold C'; lia)) as [FWn [restT [ET RT]]].
  destruct (full_groups_split B' items [] ltac:(unfold B'; lia)
              ltac:(simpl; unfold B'; lia)) as [FBn [restI [EI RI]]].
  fold FB in FBn, EI. fold FW in FWn, ET. cbn [app] in ET, EI.
  apply map_eq_app in ET. destruct ET as [FB1 [FB2 [EFB [E1 E2]]]].
  assert (Hsent : sent_records tr = concat FB1).
  { unfold sent_records. rewrite Hdis, <- E1. apply sent_records_of_bundles. }
  exists tr, (concat FB2 ++ restI).
  split; [exact Hrun|]. split.
  - rewrite Hsent, EI, EFB, concat_app. now rewrite app_assoc.
  - rewrite EFB in FBn. apply Forall_app in FBn. destruct FBn as [F1 F2].
    pose proof (length_concat_uniform B' FB1 F1) as L1.
    pose proof (length_concat_uniform B' FB2 F2) as L2.
    pose proof (length_concat_uniform C' FW FWn) as LW.
    assert (LT : List.length FB1 = (List.length FW * C')%nat)
      by (rewrite <- LW, <- E1; now rewrite length_map).
    assert (L2' : (List.length FB2 < C')%nat)
      by (rewrite <- E2 in RT; now rewrite length_map in RT).
    assert (HN : List.length items
                 = (List.length FW * C' * B'
                    + (List.length FB2 * B' + List.length restI))%nat).
    { rewrite EI at 1. rewrite EFB, concat_app, !length_app, L1, L2, LT. lia. }
    assert (EB : Z.of_nat B' = bundle_size) by (unfold B'; lia).
    assert (EC : Z.of_nat C' = chunksize) by (unfold C'; lia).
    unfold len. rewrite length_app, L2.
    apply Z.mod_unique with (q := Z.of_nat (List.length FW)).
    + left. nia.
    + rewrite HN. nia.
Qed.

Lemma overstated_count_leaves_the_tail_witness :
  exists tr pending,
    _chunk_queryset_into_tasks a_command three_records 4 1 2 []
    = (Return tt, [], tr)
    /\ three_records = sent_records tr ++ pending
    /\ len pending = len three_records mod (2 * 1).
Proof.
  apply (overstated_count_leaves_the_tail a_command three_records 4 1 2 []);
    [lia | lia | vm_compute; reflexivity | vm_compute; discriminate].
Defined.

(** X11. With [count] zero and at least one record the engine stops on
    ZeroDivisionError at the first progress line: no progress line is
    written and no line of standard input is read. *)
Theorem zero_count_raises :
  forall (self : command) (item : record) (items : list record)
         (chunksize bundle_size : Z) (stdin : list string),
  exists tr,
    _chunk_queryset_into_tasks self (item :: items) 0 chunksize bundle_size
                               stdin
    = (Raise ZeroDivisionError, stdin, tr)
    /\ progress_lines tr = [].
Proof.
  intros self item items chunksize bundle_size stdin.
  assert (Hv : forall (b : bool) e j,
             when b (emit e) j = (Return tt, j, if b then [e] else []))
    by (intros [|] ? ?; reflexivity).
  assert (Hs : forall (b : bool) e1 e2 j,
             when b (bind (emit e1) (fun _ => emit e2)) j
             = (Return tt, j, if b then [e1; e2] else []))
    by (intros [|] ? ? ?; reflexivity).
  assert (P : forall j, progress_line (0 + 1) 0 j
                        = (Raise ZeroDivisionError, j, []))
    by (intros j; reflexivity).
  assert (R : forall {A B} (m : M A) (f : A -> M B) j,
             bind m f j
             = match m j with
               | (Return a, j', t) =>
                   let '(r, j'', t') := f a j' in (r, j'', t ++ t')
               | (SysExit c, j', t) => (SysExit c, j', t)
               | (Raise e, j', t) => (Raise e, j', t)
               end) by reflexivity.
  unfold _chunk_queryset_into_tasks. cbn [chunk_loop].
  rewrite R, R, Hv. cbv iota beta.
  rewrite R, Hs. cbv iota beta.
  rewrite R, P. cbv iota beta.
  eexists. split; [reflexivity|].
  destruct (self_verbosity self >=? 2);
    match goal with
    | |- context [if ?b then [ApplyAsync ?w; Join] else []] => destruct b
    end; reflexivity.
Qed.

(** X12. At verbosity 2 or more the engine writes one line [Indexing item
    pk] on [self.stdout] for each record, in order, before the closing
    newline; below 2 it writes the newline only. *)
Theorem indexing_lines_follow_verbosity :
  forall (self : command) (items : list record) (chunksize bundle_size : Z)
         (stdin : list string),
    len items <= sys_maxsize ->
    exists tr,
      _chunk_queryset_into_tasks self items (len items) chunksize bundle_size
                                 stdin
      = (Return tt, stdin, tr)
      /\ stdout_lines tr
         = (if self_verbosity self >=? 2
            then map (fun r => "Indexing item " +++ str_of_int (pk r)) items
            else [])
           ++ [LF].
Proof.
  intros self items chunksize bundle_size stdin Hfit.
  eexists. split; [apply engine_run; exact Hfit|].
  rewrite stdout_lines_app, loop_stdout_lines. reflexivity.
Qed.

Lemma indexing_lines_follow_verbosity_witness :
  exists tr,
    _chunk_queryset_into_tasks a_command three_records (len three_records)
                               1 2 []
    = (Return tt, [], tr)
    /\ stdout_lines tr
       = (if self_verbosity a_command >=? 2
          then map (fun r => "Indexing item " +++ str_of_int (pk r))
                   three_records
          else [])
         ++ [LF].
Proof.
  apply (indexing_lines_follow_verbosity a_command three_records 1 2 []).
  exact three_records_fit.
Defined.

(** ** The callers of the engine *)

Lemma engine_join_count :
  forall (self : command) (items : list record) (chunksize bundle_size : Z),
    0 < chunksize ->
    len items <= sys_maxsize ->
    joins (loop_trace self (len items) chunksize bundle_size items 0 [] []
           ++ [StdoutWrite LF])
    = ceil_div (ceil_div (len items) (Z.max 1 bundle_size)) chunksize.
Proof.
  intros self items chunksize bundle_size HC Hfit.
  set (C' := Z.to_nat (Z.max 1 chunksize)).
  assert (HC' : (0 < C')%nat) by (unfold C'; lia).
  assert (EC : Z.of_nat C' = chunksize) by (unfold C'; lia).
  set (tr := loop_trace self (len items) chunksize bundle_size items 0 [] []
             ++ [StdoutWrite LF]).
  pose proof (engine_celery self items chunksize bundle_size Hfit HC) as E.
  cbv zeta in E. fold tr C' in E.
  rewrite joins_celery, E, joins_wave_events.
  rewrite <- (engine_bundle_count self items chunksize bundle_size Hfit).
  fold tr. unfold len at 1.
  rewrite <- (length_map (@List.length task)).
  rewrite (sizes_groups C' HC' (dispatched tr) []) by (simpl; lia).
  simpl List.length.
  rewrite length_run_sizes, ceil_div_of_nat by exact HC'.
  now rewrite EC.
Qed.

Lemma loop_no_delay :
  forall self count chunksize bundle_size items p st ib,
    delays (loop_trace self count chunksize bundle_size items p st ib) = [].
Proof.
  intros self count chunksize bundle_size.
  induction items as [|x items IH]; intros p st ib; [reflexivity|].
  cbn [loop_trace]. rewrite !delays_app, IH.
  destruct (self_verbosity self >=? 2);
    match goal with
    | |- context [if ?b then [ApplyAsync ?w; Join] else []] => destruct b
    end; reflexivity.
Qed.

(** The engine as its callers use it: bundles of 250, groups of 50, and the
    count of the sequence itself. *)
Lemma engine_default_run :
  forall (self : command) (items : list record) (stdin : list string),
    len items <= sys_maxsize ->
    exists tr,
      _chunk_queryset_into_tasks self items (len items) 50 250 stdin
      = (Return tt, stdin, tr)
      /\ sent_records tr = items
      /\ joins tr = ceil_div (ceil_div (len items) 250) 50
      /\ delays tr = [].
Proof.
  intros self items stdin Hfit.
  eexists. split; [apply engine_run; exact Hfit|].
  split; [apply engine_sent_records; exact Hfit|].
  split; [apply (engine_join_count self items 50 250); [lia | exact Hfit]|].
  rewrite delays_app, loop_no_delay. reflexivity.
Qed.

Lemma filter_fits : forall (f : record -> bool) (l : list record),
    len l <= sys_maxsize -> len (filter f l) <= sys_maxsize.
Proof.
  intros f l H. pose proof (filter_length_le f l). unfold len in *. lia.
Qed.

Lemma bind_emit_l : forall {B} (e : event) (f : unit -> M B) i,
    bind (emit e) f i = let '(r, i', t) := f tt i in (r, i', e :: t).
Proof.
  intros B e f i. unfold bind, emit.
  destruct (f tt i) as [[r i'] t]. reflexivity.
Qed.


Lemma banner_then_engine : forall (b : event) (tr : list event),
    is_celery b = false ->
    sent_records (b :: tr) = sent_records tr /\ joins (b :: tr) = joins tr.
Proof.
  intros b tr Hb. destruct b; try discriminate; split; reflexivity.
Qed.

(** X13. [add_or_update_by_datetime] sends to the index, through the engine
    with its default sizes, the records of the store created at the time
    given or later, each once and in the order of the store, with one join
    for every 50 bundles of 250; it reads nothing and returns normally.
    Without a model class it stops on AttributeError after its banner. *)
Theorem update_by_datetime_sends_the_selection :
  forall (env : environment) (self : command) (dt : datetime)
         (stdin : list string),
    (forall ty, len (objects env ty) <= sys_maxsize) ->
    match self_type self with
    | Some ty =>
        let selection := filter (fun r => date_created r >=? dt_key dt)
                                (objects env ty) in
        exists tr,
          add_or_update_by_datetime env self dt stdin = (Return tt, stdin, tr)
          /\ sent_records tr = selection
          /\ joins tr = ceil_div (ceil_div (len selection) 250) 50
    | None =>
        add_or_update_by_datetime env self dt stdin
        = (Raise AttributeError, stdin,
           [StdoutWrite ("Adding or updating items(s) newer than "
                         +++ dt_str dt +++ LF)])
    end.
Proof.
  intros env self dt stdin Hfit.
  unfold add_or_update_by_datetime, print_timing, get_type.
  destruct (self_type self) as [ty|]; [|reflexivity].
  cbv zeta. unfold queryset_generator.
  set (selection := filter (fun r => date_created r >=? dt_key dt)
                           (objects env ty)).
  destruct (engine_default_run self selection stdin
              (filter_fits _ _ (Hfit ty))) as [tr [Hr [Hs [Hj _]]]].
  rewrite bind_emit_l, bind_ret_l. fold selection. rewrite Hr.
  eexists. split; [reflexivity|].
  destruct (banner_then_engine
              (StdoutWrite ("Adding or updating items(s) newer than "
                            +++ dt_str dt +++ LF)) tr eq_refl) as [S J].
  rewrite S, J. split; assumption.
Qed.

Lemma update_by_datetime_sends_the_selection_witness :
  let selection := filter (fun r => date_created r >=? dt_key a_datetime)
                          (objects an_environment Opinion) in
  exists tr,
    add_or_update_by_datetime an_environment a_command a_datetime []
    = (Return tt, [], tr)
    /\ sent_records tr = selection
    /\ joins tr = ceil_div (ceil_div (len selection) 250) 50.
Proof.
  apply (update_by_datetime_sends_the_selection an_environment a_command
           a_datetime []).
  intros ty. vm_compute. discriminate.
Defined.



(** ** Bulk deletions: one delete, then one commit *)

Lemma index_events_app : forall a b,
    index_events (a ++ b) = index_events a ++ index_events b.
Proof. intros a b. apply filter_app. Qed.

Lemma gate_index_events : forall count noinput i,
    index_events (snd (proceed_with_deletion count noinput i)) = [].
Proof.
  intros count [|] i; [reflexivity|].
  unfold proceed_with_deletion, bind, emit, raw_input, ret.
  destruct i as [|a [|a2 rest]]; simpl; try reflexivity;
    destruct (affirmative a); simpl;
    destruct (count >? 10000); simpl; try reflexivity;
    destruct (affirmative a2); reflexivity.
Qed.

Lemma gated_deletes_and_commits : forall count noinput body i,
    (forall j, deletes_and_commits (snd (body j))) ->
    deletes_and_commits (snd (gated count noinput body i)).
Proof.
  intros count noinput body i Hb. unfold gated, bind.
  pose proof (gate_index_events count noinput i) as G.
  destruct (proceed_with_deletion count noinput i) as [[r j] t].
  simpl in G. destruct r as [[|]|c|e]; simpl.
  - specialize (Hb j). destruct (body j) as [[r' j'] t']. simpl in *.
    unfold deletes_and_commits in *.
    rewrite index_events_app, G. exact Hb.
  - left. now rewrite app_nil_r.
  - left. exact G.
  - left. exact G.
Qed.

Lemma bind_raise_l : forall {A B} (e : exn) (f : A -> M B) i,
    bind (raise e) f i = (Raise e, i, []).
Proof. reflexivity. Qed.

(** X15. Whatever the answers, the count and the state of the command, each
    of the three bulk deletions either sends nothing to the index or sends
    it exactly one delete followed by exactly one commit. *)
Theorem bulk_deletions_delete_then_commit :
  forall (env : environment) (self : command) (stdin : list string),
    deletes_and_commits (snd (delete_all env self stdin))
    /\ (forall dt,
           deletes_and_commits (snd (delete_by_datetime env self dt stdin)))
    /\ (forall query,
           deletes_and_commits (snd (delete_by_query env self query stdin))).
Proof.
  intros env self stdin. split; [|split].
  - unfold delete_all, get_si.
    destruct (self_si self) as [si|]; [|left; reflexivity].
    rewrite bind_ret_l.
    apply (gated_deletes_and_commits _ _
             (emit (StdoutWrite ("Removing all items from your index because "
                                 +++ "you said so." +++ LF)) ;;
              emit (StdoutWrite ("  Marking all items as deleted..." +++ LF)) ;;
              s <- ret si ;;
              emit (SolrDeleteAll (si_url s)) ;;
              emit (StdoutWrite ("  Committing the deletion..." +++ LF)) ;;
              s <- ret si ;;
              emit (SolrCommit (si_url s)) ;;
              emit (StdoutWrite (LF +++ "Done. The index located at: "
                                 +++ str_of_option_string (self_solr_url self)
                                 +++ LF +++ "is now empty." +++ LF)))).
    intros j. right. exists (SolrDeleteAll (si_url si)), (si_url si).
    split; reflexivity.
  - intros dt. unfold delete_by_datetime, print_timing, get_type, get_si.
    destruct (self_type self) as [ty|]; [|left; reflexivity].
    rewrite bind_ret_l.
    destruct (self_si self) as [si|].
    + apply (gated_deletes_and_commits _ _
               (emit (StdoutWrite ("Deleting all item(s) newer than "
                                   +++ dt_str dt +++ LF)) ;;
                s <- ret si ;;
                emit (SolrDelete (si_url s)
                        (map pk (filter (fun r => date_created r >? dt_key dt)
                                        (objects env ty)))) ;;
                s <- ret si ;;
                emit (SolrCommit (si_url s)))).
      intros j. right. eexists. exists (si_url si).
      split; [|reflexivity]. reflexivity.
    + apply (gated_deletes_and_commits _ _
               (emit (StdoutWrite ("Deleting all item(s) newer than "
                                   +++ dt_str dt +++ LF)) ;;
                s <- raise AttributeError ;;
                emit (SolrDelete (si_url s)
                        (map pk (filter (fun r => date_created r >? dt_key dt)
                                        (objects env ty)))) ;;
                s <- raise AttributeError ;;
                emit (SolrCommit (si_url s)))).
      intros j. left. reflexivity.
  - intros query. unfold delete_by_query, print_timing, get_si.
    destruct (literal_eval env query) as [e|lit]; [left; reflexivity|].
    unfold lift. rewrite bind_ret_l.
    destruct (self_si self) as [si|]; [|left; reflexivity].
    rewrite bind_ret_l.
    destruct lit as [d|]; [|left; reflexivity].
    rewrite bind_ret_l.
    apply (gated_deletes_and_commits _ _
             (emit (StdoutWrite ("Deleting all item(s) that match the query: "
                                 +++ query +++ LF)) ;;
              s <- ret si ;;
              emit (SolrDeleteQuery (si_url s) d) ;;
              s <- ret si ;;
              emit (SolrCommit (si_url s)))).
    intros j. right. eexists. exists (si_url si).
      split; [|reflexivity]. reflexivity.
Qed.

(** ** Runs that ask nothing *)

Lemma asks_nothing_ret : forall {A} (a : A), asks_nothing (ret a).
Proof. intros A a i. split; reflexivity. Qed.

Lemma asks_nothing_emit : forall e, is_prompt e = false -> asks_nothing (emit e).
Proof.
  intros e He i. split; [reflexivity|].
  unfold prompts, emit. simpl. rewrite He. reflexivity.
Qed.

Lemma asks_nothing_raise : forall {A} e, asks_nothing (@raise A e).
Proof. intros A e i. split; reflexivity. Qed.

Lemma asks_nothing_sys_exit : forall {A} c, asks_nothing (@sys_exit A c).
Proof. intros A c i. split; reflexivity. Qed.

Lemma asks_nothing_lift : forall {A} (x : exn + A), asks_nothing (lift x).
Proof. intros A [e|a] i; split; reflexivity. Qed.

(** A sequence asks nothing when its parts do; the second part may rely on
    what the first one is known to return. *)
Lemma asks_nothing_bind_with :
  forall {A B} (P : A -> Prop) (m : M A) (f : A -> M B),
    asks_nothing m ->
    (forall i a j t, m i = (Return a, j, t) -> P a) ->
    (forall a, P a -> asks_nothing (f a)) ->
    asks_nothing (bind m f).
Proof.
  intros A B P m f Hm HP Hf i. unfold bind.
  specialize (Hm i). specialize (HP i).
  destruct (m i) as [[r j] t]. simpl in Hm. destruct Hm as [Hj Ht]. subst j.
  destruct r as [a|c|e]; simpl; [|split; [reflexivity | exact Ht]..].
  specialize (Hf a (HP a i t eq_refl) i).
  destruct (f a i) as [[r' j'] t']. simpl in *.
  destruct Hf as [Hj' Ht']. split; [exact Hj'|].
  rewrite prompts_app. lia.
Qed.

Lemma asks_nothing_bind : forall {A B} (m : M A) (f : A -> M B),
    asks_nothing m -> (forall a, asks_nothing (f a)) ->
    asks_nothing (bind m f).
Proof.
  intros A B m f Hm Hf.
  apply (asks_nothing_bind_with (fun _ => True)); auto.
Qed.

Lemma asks_nothing_when : forall (b : bool) m,
    asks_nothing m -> asks_nothing (when b m).
Proof. intros [|] m Hm; [exact Hm | apply asks_nothing_ret]. Qed.

Lemma asks_nothing_try_except : forall {A} (m : M A) e h,
    asks_nothing m -> asks_nothing h -> asks_nothing (try_except m e h).
Proof.
  intros A m e h Hm Hh i. unfold try_except.
  specialize (Hm i). destruct (m i) as [[r j] t]. simpl in Hm.
  destruct Hm as [Hj Ht]. subst j.
  destruct r as [a|c|e']; simpl; try (split; [reflexivity | exact Ht]).
  destruct (exn_eqb e e'); [|split; [reflexivity | exact Ht]].
  specialize (Hh i). destruct (h i) as [[r' j'] t']. simpl in *.
  destruct Hh as [Hj' Ht']. split; [exact Hj'|].
  rewrite prompts_app. lia.
Qed.

Lemma asks_nothing_gate : forall count,
    asks_nothing (proceed_with_deletion count true).
Proof. intros count. apply asks_nothing_ret. Qed.

Ltac asks_nothing_step :=
  first
    [ apply asks_nothing_ret | apply asks_nothing_emit; reflexivity
    | apply asks_nothing_raise | apply asks_nothing_sys_exit
    | apply asks_nothing_lift | apply asks_nothing_gate
    | apply asks_nothing_when
    | apply asks_nothing_try_except
    | apply asks_nothing_bind; [| intros ?]
    | match goal with
      | |- asks_nothing (if ?b then _ else _) => destruct b
      | |- asks_nothing (match ?x with _ => _ end) => destruct x
      | |- asks_nothing (let '(_, _) := ?x in _) => destruct x
      end ].

Ltac asks_nothing_auto := repeat asks_nothing_step.

Lemma asks_nothing_chunk_loop :
  forall self count chunksize bundle_size items p st ib,
    asks_nothing (chunk_loop self count chunksize bundle_size items p st ib).
Proof.
  intros self count chunksize bundle_size.
  induction items as [|item items IH]; intros p st ib.
  - apply asks_nothing_ret.
  - cbn [chunk_loop]. unfold progress_line.
    repeat (apply asks_nothing_bind; [asks_nothing_auto | intros ?]).
    apply IH.
Qed.

Lemma asks_nothing_chunks : forall self items count chunksize bundle_size,
    asks_nothing
      (_chunk_queryset_into_tasks self items count chunksize bundle_size).
Proof.
  intros. unfold _chunk_queryset_into_tasks.
  apply asks_nothing_bind;
    [apply asks_nothing_chunk_loop | intros; now apply asks_nothing_emit].
Qed.

Lemma asks_nothing_optimize_each : forall env urls,
    asks_nothing (optimize_each env urls).
Proof.
  intros env. induction urls as [|url urls IH]; [apply asks_nothing_ret|].
  cbn [optimize_each]. unfold ExtraSolrInterface.
  repeat (apply asks_nothing_bind; [asks_nothing_auto | intros ?]).
  apply IH.
Qed.

Lemma asks_nothing_post_actions : forall env self o,
    asks_nothing (post_actions env self o).
Proof.
  intros. unfold post_actions, optimize, optimize_everything, print_timing,
            get_si.
  repeat (apply asks_nothing_bind; [| intros ?]);
    try (apply asks_nothing_when);
    repeat first [ apply asks_nothing_optimize_each | asks_nothing_step ].
Qed.

Lemma asks_nothing_primary_action : forall env self o,
    self_noinput self = true \/ opt_update o = true ->
    asks_nothing (primary_action env self o).
Proof.
  intros env self o H.
  unfold primary_action, add_or_update_all, add_or_update_by_datetime,
    add_or_update, delete_all, delete_by_datetime, delete_by_query, delete,
    print_timing, get_si, get_type.
  destruct (opt_update o).
  - repeat first [ apply asks_nothing_chunks | asks_nothing_step ].
  - destruct H as [H|H]; [|discriminate]. rewrite H.
    repeat first [ apply asks_nothing_chunks | asks_nothing_step ].
Qed.

Lemma setup_keeps_noinput : forall env o i self j t,
    setup env o i = (Return self, j, t) ->
    self_noinput self = opt_noinput o.
Proof.
  intros env o i self j t. unfold setup, ExtraSolrInterface, bind, emit, ret, raise.
  destruct (negb (opt_optimize_everything o)); simpl.
  - destruct (schema_loads env (opt_solr_url o)); simpl; intros E;
      [|discriminate].
    injection E as E _ _. subst self. reflexivity.
  - intros E. injection E as E _ _. subst self. reflexivity.
Qed.

(** X16. With [--noinput], or in update mode, the command never reads a line
    of standard input and never puts a question to the operator, whatever
    else is on the command line and whatever the index holds. *)
Theorem unattended_runs_ask_nothing :
  forall (env : environment) (o : options),
    opt_noinput o = true \/ opt_update o = true ->
    forall stdin : list string,
      let '(_, unread, tr) := handle env o stdin in
      unread = stdin /\ prompts tr = 0.
Proof.
  intros env o H stdin.
  assert (HA : asks_nothing (handle env o)).
  { unfold handle.
    apply (asks_nothing_bind_with
             (fun self => self_noinput self = opt_noinput o)).
    - unfold setup, ExtraSolrInterface. asks_nothing_auto.
    - apply setup_keeps_noinput.
    - intros self Hs.
      apply asks_nothing_bind; [|intros _].
      + apply asks_nothing_primary_action.
        destruct H as [H|H]; [left; congruence | right; exact H].
      + apply asks_nothing_bind; [apply asks_nothing_post_actions | intros _].
        asks_nothing_auto. }
  specialize (HA stdin).
  destruct (handle env o stdin) as [[r unread] tr]. exact HA.
Qed.

Lemma unattended_runs_ask_nothing_witness :
  let '(_, unread, tr) :=
    handle an_environment
           {| opt_verbosity := Some 1; opt_noinput := true;
              opt_solr_url := the_url; opt_type := Some Opinion;
              opt_update := false; opt_delete := true;
              opt_optimize := false; opt_optimize_everything := false;
              opt_do_commit := false; opt_everything := true;
              opt_query := None; opt_items := None; opt_datetime := None |}
           ["n"] in
  unread = ["n"] /\ prompts tr = 0.
Proof.
  apply (unattended_runs_ask_nothing an_environment
           {| opt_verbosity := Some 1; opt_noinput := true;
              opt_solr_url := the_url; opt_type := Some Opinion;
              opt_update := false; opt_delete := true;
              opt_optimize := false; opt_optimize_everything := false;
              opt_do_commit := false; opt_everything := true;
              opt_query := None; opt_items := None; opt_datetime := None |}).
  left. reflexivity.
Defined.

(** ** One wave in flight, for the whole command *)

Lemma keeps_serial_ret : forall {A} (a : A), keeps_serial (ret a).
Proof. intros A a i. apply serial_nil. Qed.

Lemma keeps_serial_emit : forall e, is_celery e = false -> keeps_serial (emit e).
Proof. intros e He i. now apply emit_serial. Qed.

Lemma keeps_serial_raise : forall {A} e, keeps_serial (@raise A e).
Proof. intros A e i. apply serial_nil. Qed.

Lemma keeps_serial_sys_exit : forall {A} c, keeps_serial (@sys_exit A c).
Proof. intros A c i. apply serial_nil. Qed.

Lemma keeps_serial_lift : forall {A} (x : exn + A), keeps_serial (lift x).
Proof. intros A [e|a] i; apply serial_nil. Qed.

Lemma keeps_serial_raw_input : forall s, keeps_serial (raw_input s).
Proof.
  intros s [|a i]; simpl;
    (apply serial_other; [reflexivity | apply serial_nil]).
Qed.

Lemma keeps_serial_bind : forall {A B} (m : M A) (f : A -> M B),
    keeps_serial m -> (forall a, keeps_serial (f a)) ->
    keeps_serial (bind m f).
Proof.
  intros A B m f Hm Hf i. apply bind_serial; [apply Hm|].
  intros a i'. apply Hf.
Qed.

Lemma keeps_serial_when : forall (b : bool) m,
    keeps_serial m -> keeps_serial (when b m).
Proof. intros [|] m Hm; [exact Hm | apply keeps_serial_ret]. Qed.

Lemma keeps_serial_try_except : forall {A} (m : M A) e h,
    keeps_serial m -> keeps_serial h -> keeps_serial (try_except m e h).
Proof.
  intros A m e h Hm Hh i. unfold try_except.
  specialize (Hm i). destruct (m i) as [[r j] t]. simpl in Hm.
  destruct r as [a|c|e']; simpl; try exact Hm.
  destruct (exn_eqb e e'); [|exact Hm].
  specialize (Hh j). destruct (h j) as [[r' j'] t']. simpl in *.
  now apply serial_app.
Qed.

Ltac keeps_serial_step :=
  first
    [ apply keeps_serial_ret | apply keeps_serial_emit; reflexivity
    | apply keeps_serial_raise | apply keeps_serial_sys_exit
    | apply keeps_serial_lift | apply keeps_serial_raw_input
    | apply keeps_serial_when
    | apply keeps_serial_try_except
    | apply keeps_serial_bind; [| intros ?]
    | match goal with
      | |- keeps_serial (if ?b then _ else _) => destruct b
      | |- keeps_serial (match ?x with _ => _ end) => destruct x
      | |- keeps_serial (let '(_, _) := ?x in _) => destruct x
      end ].

Ltac keeps_serial_auto := repeat keeps_serial_step.

Lemma keeps_serial_gate : forall count noinput,
    keeps_serial (proceed_with_deletion count noinput).
Proof. intros. unfold proceed_with_deletion. keeps_serial_auto. Qed.

Lemma keeps_serial_chunks : forall self items count chunksize bundle_size,
    keeps_serial
      (_chunk_queryset_into_tasks self items count chunksize bundle_size).
Proof.
  intros. unfold _chunk_queryset_into_tasks.
  apply keeps_serial_bind;
    [intros i; apply chunk_loop_serial | intros; now apply keeps_serial_emit].
Qed.

Lemma keeps_serial_optimize_each : forall env urls,
    keeps_serial (optimize_each env urls).
Proof.
  intros env. induction urls as [|url urls IH]; [apply keeps_serial_ret|].
  cbn [optimize_each]. unfold ExtraSolrInterface.
  repeat (apply keeps_serial_bind; [keeps_serial_auto | intros ?]).
  apply IH.
Qed.

Lemma keeps_serial_post_actions : forall env self o,
    keeps_serial (post_actions env self o).
Proof.
  intros. unfold post_actions, optimize, optimize_everything, print_timing,
            get_si.
  repeat (apply keeps_serial_bind; [| intros ?]);
    try (apply keeps_serial_when);
    repeat first [ apply keeps_serial_optimize_each | keeps_serial_step ].
Qed.

Lemma keeps_serial_primary_action : forall env self o,
    keeps_serial (primary_action env self o).
Proof.
  intros env self o.
  unfold primary_action, add_or_update_all, add_or_update_by_datetime,
    add_or_update, delete_all, delete_by_datetime, delete_by_query, delete,
    print_timing, get_si, get_type.
  repeat first [ apply keeps_serial_chunks | apply keeps_serial_gate
               | keeps_serial_step ].
Qed.

(** X17. In every run of the command, whatever the command line, the
    answers typed and the contents of the database, and wherever the run
    stops, at most one task group is in flight at any point, and none is in
    flight when a task group is dispatched. *)
Theorem command_keeps_one_wave_in_flight :
  forall (env : environment) (o : options) (stdin : list string)
         (pre suf : list event),
    snd (handle env o stdin) = pre ++ suf ->
    (in_flight pre <= 1)%nat
    /\ (forall w suf', suf = ApplyAsync w :: suf' -> in_flight pre = 0%nat).
Proof.
  intros env o stdin pre suf E.
  apply (serial_in_flight (snd (handle env o stdin))); [|exact E].
  assert (HS : keeps_serial (handle env o)).
  { unfold handle, setup, ExtraSolrInterface.
    repeat first [ apply keeps_serial_primary_action
                 | apply keeps_serial_post_actions
                 | keeps_serial_step ]. }
  apply HS.
Qed.


Lemma command_keeps_one_wave_in_flight_witness :
  let tr := snd (handle an_environment (by_datetime true) []) in
  tr = firstn 4 tr ++ skipn 4 tr
  /\ (in_flight (firstn 4 tr) <= 1)%nat
  /\ (forall w suf', skipn 4 tr = ApplyAsync w :: suf' ->
                     in_flight (firstn 4 tr) = 0%nat).
Proof.
  intros tr. split; [symmetry; apply firstn_skipn|].
  apply (command_keeps_one_wave_in_flight an_environment (by_datetime true) []).
  symmetry. apply firstn_skipn.
Defined.
